(** * echo-server: the WebSocket handler and its middleware

    A shallow embedding of [internal/ws/middleware.go] and
    [internal/ws/handler.go], followed by the properties of the rate
    limiter, the command history, the command processor, the client hub
    and the read/echo loop.

    Conventions of the embedding:
    - a Go [int], [time.Time] and [time.Duration] are integers of [Z]
      (instants and durations in nanoseconds); the negation of a duration
      wraps around as that of an int64 does; the clock reading
      [time.Now()] is an explicit argument [now];
    - a Go [string] / [[]byte] is a [string]: a sequence of 8-bit [ascii]
      code units, so that UTF-8 is visible;
    - a [float64] is a [spec_float] at precision 53 and maximal exponent
      1024 (IEEE 754 binary64);
    - a run-time panic is the [None] of an [option];
    - a [*websocket.Conn] is identified by a number. *)

From Stdlib Require Import ZArith List Lia Bool String Ascii Sorted.
From Stdlib Require Import Floats.SpecFloat DecimalString.
From stdpp Require Import base list gmap.

Local Open Scope Z_scope.

(** ** The Go library: strings and strconv *)

(** [strings.HasPrefix(s, prefix)] *)
Fixpoint HasPrefix (s prefix : string) {struct prefix} : bool :=
  match prefix, s with
  | EmptyString, _ => true
  | String p prefix', String c s' => Ascii.eqb c p && HasPrefix s' prefix'
  | String _ _, EmptyString => false
  end.

(** [s[n:]] for [n] at most the length of [s]. *)
Fixpoint drop_bytes (n : nat) (s : string) : string :=
  match n, s with
  | S n', String _ s' => drop_bytes n' s'
  | _, _ => s
  end.

(** [strings.TrimPrefix(s, prefix)] *)
Definition TrimPrefix (s prefix : string) : string :=
  if HasPrefix s prefix then drop_bytes (String.length prefix) s else s.

(** [strconv.FormatUint(id, 10)] *)
Definition FormatUint (id : Z) : string :=
  NilZero.string_of_uint (N.to_uint (Z.to_N id)).

(** The double quote, as a string of one byte. *)
Definition dquote : string := String (ascii_of_nat 34) EmptyString.

(** The parts separated by [sep], as the JSON encoder separates the members
    of an object or of an array. *)
Fixpoint Join (parts : list string) (sep : string) : string :=
  match parts with
  | [] => EmptyString
  | [p] => p
  | p :: parts' => (p ++ sep ++ Join parts' sep)%string
  end.

(** ** internal/ws/middleware.go *)

(** *** RateLimiter *)

Record RateLimiter := mkRateLimiter {
  timestamps : list Z;
  maxMessages : Z;
  windowDuration : Z
}.

Definition NewRateLimiter (maxMessages windowDuration : Z) : RateLimiter :=
  {| timestamps := [];
     maxMessages := maxMessages;
     windowDuration := windowDuration |}.

(** [t.After(u)]: [t] is strictly later than [u]. *)
Definition After (t u : Z) : bool := u <? t.

(** The loop [for _, t := range rl.timestamps { if t.After(cutoff) {
    filtered = append(filtered, t) } }], with [filtered] the slice built so
    far. *)
Fixpoint purge_loop (cutoff : Z) (ts filtered : list Z) : list Z :=
  match ts with
  | [] => filtered
  | t :: ts' =>
      purge_loop cutoff ts' (if After t cutoff then filtered ++ [t] else filtered)
  end.

(** [math.MinInt64], that is [- 2 ^ 63]. *)
Definition MinInt64 : Z := -9223372036854775808.

(** [-d] for a [time.Duration], an int64: the opposite of [math.MinInt64] is
    no int64 and wraps around to [math.MinInt64] itself. *)
Definition neg_Duration (d : Z) : Z :=
  if d =? MinInt64 then MinInt64 else - d.

(** [now.Add(-rl.windowDuration)] *)
Definition cutoff_at (now : Z) (rl : RateLimiter) : Z :=
  now + neg_Duration (windowDuration rl).

(** The purge step of [AllowMessage]: everything up to
    [rl.timestamps = filtered]. *)
Definition purge (now : Z) (rl : RateLimiter) : RateLimiter :=
  let cutoff := cutoff_at now rl in
  let filtered := purge_loop cutoff (timestamps rl) [] in
  {| timestamps := filtered;
     maxMessages := maxMessages rl;
     windowDuration := windowDuration rl |}.

Definition AllowMessage (now : Z) (rl : RateLimiter) : bool * RateLimiter :=
  let rl := purge now rl in
  if maxMessages rl <=? Z.of_nat (length (timestamps rl)) then (false, rl)
  else (true,
        {| timestamps := timestamps rl ++ [now];
           maxMessages := maxMessages rl;
           windowDuration := windowDuration rl |}).

(** The invariant of the limiter in the words of the specification, for the
    comparison with [purge]: after the purge at the instant [now] the stored
    timestamps are those of the closed interval
    [[now - windowDuration, now]]. *)
Definition closed_window (now : Z) (rl : RateLimiter) : list Z :=
  List.filter (fun t => (now - windowDuration rl <=? t) && (t <=? now))
    (timestamps rl).

(** Successive calls of [AllowMessage], one per clock reading. *)
Fixpoint AllowMessages (times : list Z) (rl : RateLimiter)
  : list bool * RateLimiter :=
  match times with
  | [] => ([], rl)
  | now :: times' =>
      let '(ok, rl') := AllowMessage now rl in
      let '(oks, rl'') := AllowMessages times' rl' in
      (ok :: oks, rl'')
  end.

(** *** CommandHistory *)

Record CommandHistory := mkCommandHistory {
  commands : list string;
  maxSize : Z
}.

(** [make([]string, 0, size)] panics for a negative capacity. *)
Definition NewCommandHistory (size : Z) : option CommandHistory :=
  if size <? 0 then None
  else Some {| commands := []; maxSize := size |}.

(** [ch.commands[1:]] panics when the slice is empty (bounds [1:0]). *)
Definition Add (command : string) (ch : CommandHistory) : option CommandHistory :=
  if maxSize ch <=? Z.of_nat (length (commands ch)) then
    match commands ch with
    | [] => None
    | _ :: rest =>
        Some {| commands := rest ++ [command]; maxSize := maxSize ch |}
    end
  else Some {| commands := commands ch ++ [command]; maxSize := maxSize ch |}.

(** [GetHistory] returns a copy of the slice. *)
Definition GetHistory (ch : CommandHistory) : list string := commands ch.

(** [GetHistoryJSON]: [json.Marshal] of the map with the keys [history]
    and [count]. The keys of a map are written in sorted order, a slice of
    strings as an array. [encode_string] is the JSON text of a string. *)
Definition GetHistoryJSON (encode_string : string -> string)
    (ch : CommandHistory) : string :=
  let history := GetHistory ch in
  ("{" ++ dquote ++ "count" ++ dquote ++ ":"
       ++ FormatUint (Z.of_nat (length history)) ++ ","
       ++ dquote ++ "history" ++ dquote ++ ":"
       ++ "[" ++ Join (map encode_string history) "," ++ "]" ++ "}")%string.

(** [Add] called once per element of [cs], in order. *)
Fixpoint AddAll (cs : list string) (ch : CommandHistory) : option CommandHistory :=
  match cs with
  | [] => Some ch
  | c :: cs' =>
      match Add c ch with
      | Some ch' => AddAll cs' ch'
      | None => None
      end
  end.

(** *** ClientHub *)

(** The identity of a [*websocket.Conn]. *)
Definition Conn := nat.

Record BroadcastMessage := mkBroadcastMessage {
  Payload : string;
  Sender : Conn
}.

Record ClientHub := mkClientHub {
  clients : gmap Conn bool
}.

(** What one pass of the hub does to the outside world: a
    [client.WriteMessage(websocket.TextMessage, payload)] with its outcome,
    or a line of the log. *)
Inductive HubEvent :=
| EvWrite (client : Conn) (payload : string) (ok : bool)
| EvLog (line : string).

(** The three channels the [select] of [Run] receives from. *)
Inductive HubRequest :=
| ReqRegister (conn : Conn)
| ReqUnregister (conn : Conn)
| ReqBroadcast (msg : BroadcastMessage).

(** The body of [for client := range h.clients] over the keys in the order
    [order] the run time enumerates them; [write client] is the error of the
    write to [client], [None] when it succeeds. *)
Fixpoint broadcast_range (order : list Conn) (msg : BroadcastMessage)
    (write : Conn -> option string) : list HubEvent :=
  match order with
  | [] => []
  | client :: rest =>
      if Nat.eqb client (Sender msg) then broadcast_range rest msg write
      else
        match write client with
        | None =>
            EvWrite client (Payload msg) true :: broadcast_range rest msg write
        | Some err =>
            EvWrite client (Payload msg) false
              :: EvLog ("error broadcasting to client: " ++ err)
              :: broadcast_range rest msg write
        end
  end.

(** One iteration of the loop of [Run]. The enumeration order of a Go map is
    not specified: [range_keys] is the order chosen for this pass. *)
Definition Run_step (range_keys : gmap Conn bool -> list Conn)
    (write : Conn -> option string) (h : ClientHub) (req : HubRequest)
  : ClientHub * list HubEvent :=
  match req with
  | ReqRegister conn =>
      let clients' := <[conn := true]> (clients h) in
      ({| clients := clients' |},
       [EvLog ("Client registered, total clients: "
                 ++ FormatUint (Z.of_nat (size clients')))])
  | ReqUnregister conn =>
      match clients h !! conn with
      | Some _ =>
          let clients' := delete conn (clients h) in
          ({| clients := clients' |},
           [EvLog ("Client unregistered, total clients: "
                     ++ FormatUint (Z.of_nat (size clients')))])
      | None => (h, [])
      end
  | ReqBroadcast msg =>
      (h, broadcast_range (range_keys (clients h)) msg write)
  end.

(** The loop of [Run] over the requests received, in the order received. *)
Fixpoint Run (range_keys : gmap Conn bool -> list Conn)
    (write : Conn -> option string) (h : ClientHub) (reqs : list HubRequest)
  : ClientHub * list HubEvent :=
  match reqs with
  | [] => (h, [])
  | req :: reqs' =>
      let '(h', evs) := Run_step range_keys write h req in
      let '(h'', evs') := Run range_keys write h' reqs' in
      (h'', evs ++ evs')
  end.

(** The connections a pass tried to write to, in order, and those it
    reached. *)
Fixpoint attempted (evs : list HubEvent) : list Conn :=
  match evs with
  | [] => []
  | EvWrite client _ _ :: evs' => client :: attempted evs'
  | EvLog _ :: evs' => attempted evs'
  end.

Fixpoint delivered (evs : list HubEvent) : list (Conn * string) :=
  match evs with
  | [] => []
  | EvWrite client payload true :: evs' => (client, payload) :: delivered evs'
  | _ :: evs' => delivered evs'
  end.

Fixpoint logged (evs : list HubEvent) : nat :=
  match evs with
  | [] => 0%nat
  | EvLog _ :: evs' => S (logged evs')
  | _ :: evs' => logged evs'
  end.

(** ** Strings, runes and UTF-8

    The conversions [[]rune(text)] and [string(runes)] of the Go language:
    a string is decoded as UTF-8, every byte that does not start a
    well-formed encoding becoming one [RuneError]; a rune is encoded as
    UTF-8, a rune that is no Unicode scalar value as [RuneError]. *)

Definition byte_val (a : ascii) : Z := Z.of_N (N_of_ascii a).
Definition byte_of (z : Z) : ascii := ascii_of_N (Z.to_N z).

Definition RuneError : Z := 0xFFFD.
Definition MaxRune : Z := 0x10FFFF.

(** A Unicode scalar value: a code point that is no surrogate. *)
Definition is_scalar (r : Z) : bool :=
  (0 <=? r) && (r <=? MaxRune) && negb ((0xD800 <=? r) && (r <=? 0xDFFF)).

(** The length of the encoding a first byte announces. *)
Inductive width := W2 | W3 | W4.

(** For a first byte above 0x7F: the announced width and the range
    [[lo, hi]] accepted for the second byte. *)
Definition first (b0 : Z) : option (width * Z * Z) :=
  if (0xC2 <=? b0) && (b0 <=? 0xDF) then Some (W2, 0x80, 0xBF)
  else if b0 =? 0xE0 then Some (W3, 0xA0, 0xBF)
  else if (0xE1 <=? b0) && (b0 <=? 0xEC) then Some (W3, 0x80, 0xBF)
  else if b0 =? 0xED then Some (W3, 0x80, 0x9F)
  else if (0xEE <=? b0) && (b0 <=? 0xEF) then Some (W3, 0x80, 0xBF)
  else if b0 =? 0xF0 then Some (W4, 0x90, 0xBF)
  else if (0xF1 <=? b0) && (b0 <=? 0xF3) then Some (W4, 0x80, 0xBF)
  else if b0 =? 0xF4 then Some (W4, 0x80, 0x8F)
  else None.

Definition between (lo hi : Z) (a : ascii) : bool :=
  (lo <=? byte_val a) && (byte_val a <=? hi).

(** The six payload bits of a continuation byte. *)
Definition low6 (a : ascii) : Z := byte_val a - 0x80.

(** [[]rune(s)] *)
Fixpoint runes_of_string (s : string) : list Z :=
  match s with
  | EmptyString => []
  | String a0 s0 =>
      let b0 := byte_val a0 in
      let invalid := RuneError :: runes_of_string s0 in
      if b0 <? 0x80 then b0 :: runes_of_string s0
      else
        match first b0, s0 with
        | Some (w, lo, hi), String a1 s1 =>
            if between lo hi a1 then
              match w, s1 with
              | W2, _ => ((b0 - 0xC0) * 64 + low6 a1) :: runes_of_string s1
              | _, String a2 s2 =>
                  if between 0x80 0xBF a2 then
                    match w, s2 with
                    | W3, _ =>
                        ((b0 - 0xE0) * 4096 + low6 a1 * 64 + low6 a2)
                          :: runes_of_string s2
                    | _, String a3 s3 =>
                        if between 0x80 0xBF a3 then
                          ((b0 - 0xF0) * 262144 + low6 a1 * 4096
                             + low6 a2 * 64 + low6 a3)
                            :: runes_of_string s3
                        else invalid
                    | _, EmptyString => invalid
                    end
                  else invalid
              | _, EmptyString => invalid
              end
            else invalid
        | _, _ => invalid
        end
  end.

(** The UTF-8 encoding of one rune. *)
Definition encode_rune (r : Z) : list Z :=
  if r <? 0 then [0xEF; 0xBF; 0xBD]
  else if r <=? 0x7F then [r]
  else if r <=? 0x7FF then [0xC0 + r / 64; 0x80 + r mod 64]
  else if (MaxRune <? r) || ((0xD800 <=? r) && (r <=? 0xDFFF))
       then [0xEF; 0xBF; 0xBD]
  else if r <=? 0xFFFF
       then [0xE0 + r / 4096; 0x80 + (r / 64) mod 64; 0x80 + r mod 64]
  else [0xF0 + r / 262144; 0x80 + (r / 4096) mod 64;
        0x80 + (r / 64) mod 64; 0x80 + r mod 64].

Fixpoint string_of_bytes (bs : list Z) (tail : string) : string :=
  match bs with
  | [] => tail
  | b :: bs' => String (byte_of b) (string_of_bytes bs' tail)
  end.

(** [string(runes)] *)
Fixpoint string_of_runes (runes : list Z) : string :=
  match runes with
  | [] => EmptyString
  | r :: runes' => string_of_bytes (encode_rune r) (string_of_runes runes')
  end.

(** Text made of well-formed Unicode scalar values only: the UTF-8 encoding
    of a sequence of scalar values. *)
Definition well_formed (s : string) : Prop :=
  exists runes : list Z,
    forallb is_scalar runes = true /\ s = string_of_runes runes.

(** The same as a test: decoding and encoding again gives the string back. *)
Definition well_formedb (s : string) : bool :=
  String.eqb (string_of_runes (runes_of_string s)) s.

(** *** Well-formed UTF-8, by the table of the Unicode standard

    Independently of the two conversions above: the byte sequences that
    encode one Unicode scalar value, given by the range of the first byte
    and the ranges of the bytes that follow it. *)

Definition byte_in (lo hi : Z) (a : ascii) : bool :=
  (lo <=? byte_val a) && (byte_val a <=? hi).

(** One encoded character: a well-formed UTF-8 byte sequence. *)
Definition utf8_char (c : string) : bool :=
  match c with
  | String a0 EmptyString => byte_in 0x00 0x7F a0
  | String a0 (String a1 EmptyString) =>
      byte_in 0xC2 0xDF a0 && byte_in 0x80 0xBF a1
  | String a0 (String a1 (String a2 EmptyString)) =>
      (byte_in 0xE0 0xE0 a0 && byte_in 0xA0 0xBF a1
       || byte_in 0xE1 0xEC a0 && byte_in 0x80 0xBF a1
       || byte_in 0xED 0xED a0 && byte_in 0x80 0x9F a1
       || byte_in 0xEE 0xEF a0 && byte_in 0x80 0xBF a1)
      && byte_in 0x80 0xBF a2
  | String a0 (String a1 (String a2 (String a3 EmptyString))) =>
      (byte_in 0xF0 0xF0 a0 && byte_in 0x90 0xBF a1
       || byte_in 0xF1 0xF3 a0 && byte_in 0x80 0xBF a1
       || byte_in 0xF4 0xF4 a0 && byte_in 0x80 0x8F a1)
      && byte_in 0x80 0xBF a2 && byte_in 0x80 0xBF a3
  | _ => false
  end.

(** The text made of the encoded characters [chars], in order. *)
Fixpoint concat_chars (chars : list string) : string :=
  match chars with
  | [] => EmptyString
  | c :: chars' => (c ++ concat_chars chars')%string
  end.

(** The code point [[]rune] reads at the head of a string. *)
Definition code_point (c : string) : Z :=
  match runes_of_string c with
  | r :: _ => r
  | [] => RuneError
  end.

(** [runes[i]] and [runes[i] = x] with their bounds checks. *)
Definition index (runes : list Z) (i : Z) : option Z :=
  if i <? 0 then None else runes !! Z.to_nat i.

Definition set_index (runes : list Z) (i : Z) (x : Z) : option (list Z) :=
  if (0 <=? i) && (i <? Z.of_nat (length runes))
  then Some (<[Z.to_nat i := x]> runes) else None.

(** [for i, j := 0, len(runes)-1; i < j; i, j = i+1, j-1 {
      runes[i], runes[j] = runes[j], runes[i] }]
    from the state [(i, j, runes)]; [fuel] bounds the number of
    iterations. [None]: an index out of range, or no fuel left. *)
Fixpoint reverse_loop (fuel : nat) (i j : Z) (runes : list Z) : option (list Z) :=
  if i <? j then
    match fuel with
    | O => None
    | S fuel' =>
        match index runes j, index runes i with
        | Some rj, Some ri =>
            match set_index runes i rj with
            | Some runes1 =>
                match set_index runes1 j ri with
                | Some runes2 => reverse_loop fuel' (i + 1) (j - 1) runes2
                | None => None
                end
            | None => None
            end
        | _, _ => None
        end
    end
  else Some runes.

Definition reverse_runes (runes : list Z) : option (list Z) :=
  reverse_loop (length runes) 0 (Z.of_nat (length runes) - 1) runes.

(** ** internal/ws/handler.go *)

(** *** float64 *)

Definition float64 := spec_float.
Definition f64_zero : float64 := S754_zero false.
Definition f64_add : float64 -> float64 -> float64 := SFadd 53 1024.
Definition f64_sub : float64 -> float64 -> float64 := SFsub 53 1024.
Definition f64_mul : float64 -> float64 -> float64 := SFmul 53 1024.
Definition f64_div : float64 -> float64 -> float64 := SFdiv 53 1024.
(** [x == y] on floats: both zeros are equal, a NaN equals nothing. *)
Definition f64_eqb : float64 -> float64 -> bool := SFeqb.
(** [float64(n)] for an integer [n] that binary64 represents (rounded
    otherwise). *)
Definition f64_of_Z (n : Z) : float64 := binary_normalize 53 1024 n 0 false.

(** *** Requests and responses *)

Record CommandRequest := mkCommandRequest {
  Command : string;
  A : float64;
  B : float64
}.

Record CommandResponse := mkCommandResponse {
  Result : float64;              (* `json:"result,omitempty"` *)
  RCommand : string;             (* `json:"command"` *)
  Error : string                 (* `json:"error,omitempty"` *)
}.

(** Lines 69 to 99 of [processCommand]: the [switch] on [req.Command] and
    the construction of the response. [result] and [respErr] start at their
    zero values. *)
Definition evaluate (req : CommandRequest) : CommandResponse :=
  let '(result, respErr) :=
    if String.eqb (Command req) "add" then
      (f64_add (A req) (B req), EmptyString)
    else if String.eqb (Command req) "subtract" then
      (f64_sub (A req) (B req), EmptyString)
    else if String.eqb (Command req) "multiply" then
      (f64_mul (A req) (B req), EmptyString)
    else if String.eqb (Command req) "divide" then
      if f64_eqb (B req) f64_zero then (f64_zero, "division by zero"%string)
      else (f64_div (A req) (B req), EmptyString)
    else (f64_zero, ("unknown command: " ++ Command req)%string) in
  if negb (String.eqb respErr EmptyString) then
    {| Result := f64_zero; RCommand := Command req; Error := respErr |}
  else
    {| Result := result; RCommand := Command req; Error := EmptyString |}.

(** *** encoding/json on a [CommandResponse]

    The value [json.Marshal] serialises: the members of the object in the
    order of the struct fields. A field tagged [omitempty] is left out when
    it is empty: a number equal to zero, a string of length zero. *)

Inductive JValue :=
| JNumber (f : float64)
| JString (s : string).

Definition JObject := list (string * JValue).

Definition isEmptyValue_float (f : float64) : bool := f64_eqb f f64_zero.
Definition isEmptyValue_string (s : string) : bool := String.eqb s EmptyString.

(** [json.Marshal(resp)]: the object, or the message of the
    [UnsupportedValueError] raised for a float that is infinite or NaN. *)
Definition Marshal (resp : CommandResponse) : JObject + string :=
  let command_error :=
    ("command"%string, JString (RCommand resp))
      :: (if isEmptyValue_string (Error resp) then []
          else [("error"%string, JString (Error resp))]) in
  if isEmptyValue_float (Result resp) then inl command_error
  else
    match Result resp with
    | S754_nan => inr "json: unsupported value: NaN"%string
    | S754_infinity false => inr "json: unsupported value: +Inf"%string
    | S754_infinity true => inr "json: unsupported value: -Inf"%string
    | _ => inl (("result"%string, JNumber (Result resp)) :: command_error)
    end.

(** The member named [key] of an object, when present. *)
Fixpoint member (key : string) (obj : JObject) : option JValue :=
  match obj with
  | [] => None
  | (k, v) :: obj' => if String.eqb k key then Some v else member key obj'
  end.

(** What a client reads in the serialised response. *)
Definition has_member (key : string) (out : JObject + string) : bool :=
  match out with
  | inl obj => match member key obj with Some _ => true | None => false end
  | inr _ => false
  end.

(** *** The connection handler *)

Definition TextMessage : Z := 1.
Definition BinaryMessage : Z := 2.
Definition CloseNormalClosure : Z := 1000.

(** What [conn.ReadMessage()] returns. *)
Inductive ReadResult :=
| ReadError
| ReadMessage (msgType : Z) (payload : string).

(** The writes the read loop makes on the connection: a message handed to
    [conn.WriteMessage], or the close frame handed to [conn.WriteControl]
    together with the outcome of that write, which the handler discards (the
    frame reaches the peer only when [ok] holds; it does not, for instance,
    once a close frame has already been sent). *)
Inductive ConnWrite :=
| WriteMessage (messageType : Z) (data : string)
| WriteClose (closeCode : Z) (text : string) (ok : bool).

Section Handler.

(** Functions of the Go standard library the handler calls, outside of
    this repository. *)

(** [strings.ToUpper] *)
Variable strings_ToUpper : string -> string.
(** [json.Unmarshal(payload, &req)]: the request decoded, or the text of
    the error. *)
Variable json_Unmarshal : string -> CommandRequest + string.
(** The JSON text of a finite number and of a string. *)
Variable encode_float : float64 -> string.
Variable encode_string : string -> string.

Definition encode_member (kv : string * JValue) : string :=
  (dquote ++ fst kv ++ dquote ++ ":" ++
     match snd kv with
     | JNumber f => encode_float f
     | JString s => encode_string s
     end)%string.

(** The bytes of a marshalled object. *)
Definition encode_object (obj : JObject) : string :=
  ("{" ++ Join (map encode_member obj) "," ++ "}")%string.

(** [processCommand]: the bytes of the response, or the error of the last
    [json.Marshal]. *)
Definition processCommand (payload : string) : string + string :=
  match json_Unmarshal payload with
  | inr err =>
      let resp := {| Result := f64_zero;
                     RCommand := "unknown";
                     Error := ("invalid JSON: " ++ err)%string |} in
      match Marshal resp with
      | inl obj => inl (encode_object obj)
      | inr _ => inl EmptyString
      end
  | inl req =>
      match Marshal (evaluate req) with
      | inl obj => inl (encode_object obj)
      | inr err => inr err
      end
  end.

(** Lines 214 to 239 of [HandleWebSocket]: the response body for the text
    message [payload]. [None] is a panic. *)
Definition responseBody (payload : string) : option string :=
  let message := payload in
  if HasPrefix message "UPPER:" then
    let text := TrimPrefix message "UPPER:" in
    Some (strings_ToUpper text)
  else if HasPrefix message "REVERSE:" then
    let text := TrimPrefix message "REVERSE:" in
    match reverse_runes (runes_of_string text) with
    | Some runes => Some (string_of_runes runes)
    | None => None
    end
  else if (0 <? Z.of_nat (String.length message)) && HasPrefix message "{" then
    match processCommand payload with
    | inr err => Some ("{" ++ dquote ++ "error" ++ dquote ++ ":"
                         ++ dquote ++ err ++ dquote ++ "}")%string
    | inl resp => Some resp
    end
  else Some message.

(** One iteration of the read/echo loop, from the value of the global
    [messageCounter]: the new value of the counter, what is written on the
    connection, and whether the loop goes on. [write_ok] is the outcome of
    the write of this iteration: of [conn.WriteMessage] for a text frame, of
    [conn.WriteControl] after a read error. [None] is a panic. *)
Definition read_loop_body (messageCounter : Z) (r : ReadResult)
    (write_ok : bool) : option (Z * list ConnWrite * bool) :=
  match r with
  | ReadError =>
      Some (messageCounter,
            [WriteClose CloseNormalClosure "idle timeout" write_ok], false)
  | ReadMessage msgType payload =>
      if msgType =? TextMessage then
        let id := (messageCounter + 1) mod 2 ^ 64 in
        match responseBody payload with
        | Some body =>
            let formatted := ("#" ++ FormatUint id ++ " " ++ body)%string in
            Some (id, [WriteMessage TextMessage formatted], write_ok)
        | None => None
        end
      else Some (messageCounter, [], true)
  end.

(** The loop over the successive results of [conn.ReadMessage], each with
    the outcome of the write it may cause: the final counter and
    everything sent. *)
Fixpoint read_loop (messageCounter : Z) (reads : list (ReadResult * bool))
  : option (Z * list ConnWrite) :=
  match reads with
  | [] => Some (messageCounter, [])
  | (r, write_ok) :: reads' =>
      match read_loop_body messageCounter r write_ok with
      | Some (counter, sent, true) =>
          match read_loop counter reads' with
          | Some (counter', sent') => Some (counter', sent ++ sent')
          | None => None
          end
      | Some (counter, sent, false) => Some (counter, sent)
      | None => None
      end
  end.

End Handler.

(** The number of text frames among the results of [conn.ReadMessage]. *)
Definition is_text (r : ReadResult) : bool :=
  match r with
  | ReadMessage msgType _ => msgType =? TextMessage
  | ReadError => false
  end.

Definition text_frames (reads : list (ReadResult * bool)) : nat :=
  length (List.filter (fun rw => is_text (fst rw)) reads).

(** The texts sent with [conn.WriteMessage]. *)
Fixpoint replies (sent : list ConnWrite) : list string :=
  match sent with
  | [] => []
  | WriteMessage _ data :: sent' => data :: replies sent'
  | WriteClose _ _ _ :: sent' => replies sent'
  end.

(** ** Further parts of the two files *)

(** *** RateLimiter: the accepted calls *)

(** The instants at which [AllowMessage] returned true, among the
    successive calls at [times]. *)
Fixpoint accepted (times : list Z) (rl : RateLimiter) : list Z :=
  match times with
  | [] => []
  | now :: times' =>
      let '(ok, rl') := AllowMessage now rl in
      if ok then now :: accepted times' rl' else accepted times' rl'
  end.

(** *** ClientHub: [init] and the membership *)

(** The hub [init] builds: no client. *)
Definition NewClientHub : ClientHub := {| clients := ∅ |}.

(** Whether [conn] is registered after the requests [reqs], when
    [initially] tells whether it was before: the last [Register] or
    [Unregister] of [conn] decides. *)
Fixpoint registered_after (conn : Conn) (reqs : list HubRequest)
    (initially : bool) : bool :=
  match reqs with
  | [] => initially
  | ReqRegister c :: reqs' =>
      registered_after conn reqs' (if Nat.eqb c conn then true else initially)
  | ReqUnregister c :: reqs' =>
      registered_after conn reqs' (if Nat.eqb c conn then false else initially)
  | ReqBroadcast _ :: reqs' => registered_after conn reqs' initially
  end.

(** *** The origin check and the handshake *)

Definition allowedOrigins : list string := ["http://localhost:4000"%string].

(** A string of bytes below 0x80 only. *)
Fixpoint ascii_only (s : string) : bool :=
  match s with
  | EmptyString => true
  | String a s' => (byte_val a <? 0x80) && ascii_only s'
  end.

(** The ASCII letters in lower case. *)
Definition lower_byte (a : ascii) : ascii :=
  if (65 <=? byte_val a) && (byte_val a <=? 90)
  then byte_of (byte_val a + 32) else a.

Fixpoint ascii_lower (s : string) : string :=
  match s with
  | EmptyString => EmptyString
  | String a s' => String (lower_byte a) (ascii_lower s')
  end.

(** What [HandleWebSocket] reads of the request, and how it answers before
    the read loop. *)
Record Request := mkRequest {
  Method : string;
  Origin : string        (* [r.Header.Get("Origin")], empty when absent *)
}.

Inductive Handshake :=
| HTTPError (body : string) (status : Z)
| Upgraded
| ConnectionLost.

(** What [upgrader.Upgrade] comes to: the connection, a failure reported
    through [upgrader.Error] with its status, or a failure after the
    connection was taken over from the HTTP server, which answers nothing. *)
Inductive UpgradeResult :=
| UpgradeOk
| UpgradeRejected (status : Z)
| UpgradeFailed.

Section OriginCheck.

(** [strings.EqualFold] from its first byte above 0x7F on: the comparison of
    the two remainders under Unicode case folding. *)
Variable EqualFold_unicode : string -> string -> bool.

(** [strings.EqualFold(s, t)]: byte by byte while both strings are ASCII
    ([sr|tr < utf8.RuneSelf]), equal bytes or the two cases of one letter;
    at the end the lengths must agree. *)
Fixpoint EqualFold (s t : string) : bool :=
  match s, t with
  | String a s', String b t' =>
      let sr := byte_val a in
      let tr := byte_val b in
      if 0x80 <=? Z.lor sr tr then EqualFold_unicode s t
      else if tr =? sr then EqualFold s' t'
      else
        let lo := if tr <? sr then tr else sr in
        let hi := if tr <? sr then sr else tr in
        if (65 <=? lo) && (lo <=? 90) && (hi =? lo + 97 - 65)
        then EqualFold s' t' else false
  | EmptyString, EmptyString => true
  | _, _ => false
  end.

(** [originAllowed] *)
Definition originAllowed (o : string) : bool :=
  if String.eqb o EmptyString then false
  else existsb (fun a => EqualFold o a) allowedOrigins.

(** The steps of [upgrader.Upgrade] other than the origin check: the status
    of the first check that fails before [CheckOrigin] is called, and what
    happens after it. *)
Variable checks_before : Request -> option Z.
Variable steps_after : Request -> UpgradeResult.

(** [upgrader.Upgrade] *)
Definition Upgrade (r : Request) : UpgradeResult :=
  match checks_before r with
  | Some status => UpgradeRejected status
  | None =>
      if originAllowed (Origin r) then steps_after r
      else UpgradeRejected 403
  end.

(** [upgrader.Error] *)
Definition upgrader_Error (status : Z) : Handshake :=
  HTTPError "origin not allowed" 403.

(** [HandleWebSocket] up to the read loop. *)
Definition HandleWebSocket_handshake (r : Request) : Handshake :=
  if negb (String.eqb (Method r) "GET") then
    HTTPError "method not allowed" 405
  else
    match Upgrade r with
    | UpgradeOk => Upgraded
    | UpgradeRejected status => upgrader_Error status
    | UpgradeFailed => ConnectionLost
    end.

End OriginCheck.

(** *** Byte strings *)

(** The bytes of a string in reverse order. *)
Definition string_rev (s : string) : string :=
  string_of_list_ascii (rev (list_ascii_of_string s)).

(** What [string(runes)] makes of a rune: itself when it is a scalar value,
    [RuneError] otherwise. *)
Definition sanitize (r : Z) : Z := if is_scalar r then r else RuneError.

(** * Properties *)

(** ** RateLimiter *)

Lemma purge_loop_filter (cutoff : Z) (ts filtered : list Z) :
  purge_loop cutoff ts filtered
  = filtered ++ List.filter (fun t => After t cutoff) ts.
Proof.
  revert filtered. induction ts as [|t ts IH]; intros filtered; simpl.
  - now rewrite app_nil_r.
  - rewrite IH. destruct (After t cutoff); simpl; [|reflexivity].
    now rewrite <- app_assoc.
Qed.

(** The negation of a duration never exceeds its opposite, and is its
    opposite for every duration but [math.MinInt64]. *)
Lemma neg_Duration_le (d : Z) : neg_Duration d <= - d.
Proof.
  unfold neg_Duration, MinInt64.
  destruct (Z.eqb_spec d (-9223372036854775808)); lia.
Qed.

Lemma neg_Duration_opp (d : Z) : d <> MinInt64 -> neg_Duration d = - d.
Proof.
  intros Hd. unfold neg_Duration.
  destruct (Z.eqb_spec d MinInt64); [contradiction | reflexivity].
Qed.

Lemma neg_Duration_wraps :
  neg_Duration MinInt64 = MinInt64 /\
  forall d, - 2 ^ 63 <= d < 2 ^ 63 ->
            neg_Duration d = (- d + 2 ^ 63) mod 2 ^ 64 - 2 ^ 63.
Proof.
  split; [reflexivity|]. intros d Hd. unfold neg_Duration, MinInt64.
  change (2 ^ 63) with 9223372036854775808 in *.
  change (2 ^ 64) with 18446744073709551616.
  destruct (Z.eqb_spec d (-9223372036854775808)) as [->|Hne]; [reflexivity|].
  rewrite Z.mod_small by lia. lia.
Qed.

Lemma cutoff_at_window (now : Z) (rl : RateLimiter) :
  windowDuration rl <> MinInt64 -> cutoff_at now rl = now - windowDuration rl.
Proof. intros Hd. unfold cutoff_at. rewrite neg_Duration_opp by exact Hd. lia. Qed.

Lemma positive_not_MinInt64 (d : Z) : 0 < d -> d <> MinInt64.
Proof. unfold MinInt64. lia. Qed.

Lemma purge_timestamps_cutoff (now : Z) (rl : RateLimiter) :
  timestamps (purge now rl)
  = List.filter (fun t => cutoff_at now rl <? t) (timestamps rl).
Proof.
  unfold purge. cbn [timestamps]. rewrite purge_loop_filter. reflexivity.
Qed.

Lemma purge_timestamps (now : Z) (rl : RateLimiter) :
  windowDuration rl <> MinInt64 ->
  timestamps (purge now rl)
  = List.filter (fun t => now - windowDuration rl <? t) (timestamps rl).
Proof.
  intros Hd. rewrite purge_timestamps_cutoff, cutoff_at_window by exact Hd.
  reflexivity.
Qed.

Lemma filter_keeps_all {X} (p : X -> bool) (l : list X) :
  (forall x, In x l -> p x = true) -> List.filter p l = l.
Proof.
  induction l as [|x l IH]; intros H; simpl; [reflexivity|].
  rewrite (H x) by now left. f_equal. apply IH. intros y Hy. apply H. now right.
Qed.

Lemma filter_drops_all {X} (p : X -> bool) (l : list X) :
  (forall x, In x l -> p x = false) -> List.filter p l = [].
Proof.
  induction l as [|x l IH]; intros H; simpl; [reflexivity|].
  rewrite (H x) by now left. apply IH. intros y Hy. apply H. now right.
Qed.

(** A limiter whose timestamps are all inside the window is left as it is
    by the purge. *)
Lemma purge_inside_window (now : Z) (rl : RateLimiter) :
  (forall t, In t (timestamps rl) -> now - t < windowDuration rl) ->
  purge now rl = rl.
Proof.
  intros H.
  assert (Hts : timestamps (purge now rl) = timestamps rl).
  { rewrite purge_timestamps_cutoff. apply filter_keeps_all.
    intros t Ht. apply Z.ltb_lt. specialize (H t Ht). unfold cutoff_at.
    pose proof (neg_Duration_le (windowDuration rl)). lia. }
  destruct rl as [ts M W]. unfold purge in *. cbn [timestamps maxMessages windowDuration] in *.
  now rewrite Hts.
Qed.

(** As long as the limit is not reached, calls within one window are all
    accepted and recorded in order. *)
Lemma AllowMessages_below_limit (M W : Z) (times ts : list Z) :
  Z.of_nat (length ts + length times) <= M ->
  (forall a b, In a (ts ++ times) -> In b (ts ++ times) -> a - b < W) ->
  AllowMessages times {| timestamps := ts; maxMessages := M; windowDuration := W |}
  = (repeat true (length times),
     {| timestamps := ts ++ times; maxMessages := M; windowDuration := W |}).
Proof.
  revert ts. induction times as [|now times IH]; intros ts Hlen Hwin; simpl.
  - now rewrite app_nil_r.
  - unfold AllowMessage. rewrite purge_inside_window.
    2:{ simpl. intros t Ht. apply Hwin; apply in_or_app; [right; now left | now left]. }
    simpl. simpl in Hlen.
    destruct (Z.leb_spec M (Z.of_nat (length ts))) as [Hge|_]; [lia|].
    rewrite IH.
    + now rewrite <- app_assoc.
    + rewrite length_app. simpl. lia.
    + rewrite <- app_assoc. exact Hwin.
Qed.

(** At the limit, a call inside the window is refused and leaves the limiter
    as it was. *)
Lemma AllowMessage_at_limit (now : Z) (rl : RateLimiter) :
  maxMessages rl <= Z.of_nat (length (timestamps rl)) ->
  (forall t, In t (timestamps rl) -> now - t < windowDuration rl) ->
  AllowMessage now rl = (false, rl).
Proof.
  intros Hfull Hwin. unfold AllowMessage. rewrite purge_inside_window by exact Hwin.
  destruct (Z.leb_spec (maxMessages rl) (Z.of_nat (length (timestamps rl))));
    [reflexivity | lia].
Qed.

(** Once every timestamp has left the window, a limiter that admits at least
    one message accepts again. *)
Lemma AllowMessage_after_window (now : Z) (rl : RateLimiter) :
  1 <= maxMessages rl ->
  windowDuration rl <> MinInt64 ->
  (forall t, In t (timestamps rl) -> windowDuration rl <= now - t) ->
  AllowMessage now rl
  = (true, {| timestamps := [now];
              maxMessages := maxMessages rl;
              windowDuration := windowDuration rl |}).
Proof.
  intros HM HW Hold. unfold AllowMessage.
  assert (Hp : timestamps (purge now rl) = []).
  { rewrite purge_timestamps by exact HW. apply filter_drops_all. intros t Ht.
    apply Z.ltb_ge. specialize (Hold t Ht). lia. }
  rewrite Hp. simpl.
  destruct (Z.leb_spec (maxMessages rl) (Z.of_nat 0)); [lia | reflexivity].
Qed.

Lemma In_take {X} (x : X) (n : nat) (l : list X) : In x (take n l) -> In x l.
Proof.
  revert n. induction l as [|y l IH]; intros [|n]; simpl; try tauto.
  intros [->|H]; [now left | right; eauto].
Qed.

Lemma AllowMessages_app (l1 l2 : list Z) (rl : RateLimiter) :
  AllowMessages (l1 ++ l2) rl
  = (fst (AllowMessages l1 rl) ++ fst (AllowMessages l2 (snd (AllowMessages l1 rl))),
     snd (AllowMessages l2 (snd (AllowMessages l1 rl)))).
Proof.
  revert rl. induction l1 as [|now l1 IH]; intros rl; simpl.
  - now destruct (AllowMessages l2 rl).
  - destruct (AllowMessage now rl) as [ok rl']. rewrite IH.
    destruct (AllowMessages l1 rl') as [oks rl'']. reflexivity.
Qed.

(** C3. A fresh limiter with [maxMessages = N] that is called [N + 1] times
    at instants lying within one window accepts exactly the first [N] calls;
    the last call is refused and the limiter is then in the state the first
    [N] calls left it in. When every recorded instant is older than the
    window, a limiter with [N >= 1] accepts again. *)
Theorem AllowMessage_burst (N : nat) (W : Z) (times : list Z) (later : Z) :
  length times = S N ->
  (forall a b, In a times -> In b times -> a - b < W) ->
  let rl0 := NewRateLimiter (Z.of_nat N) W in
  let rlN := {| timestamps := take N times;
                maxMessages := Z.of_nat N;
                windowDuration := W |} in
  AllowMessages (take N times) rl0 = (repeat true N, rlN) /\
  AllowMessages times rl0 = (repeat true N ++ [false], rlN) /\
  ((1 <= N)%nat ->
   (forall t, In t (timestamps rlN) -> W < later - t) ->
   fst (AllowMessage later rlN) = true).
Proof.
  intros Hlen Hwin rl0 rlN.
  assert (HlenN : length (take N times) = N) by (rewrite length_take; lia).
  assert (Hfirst : AllowMessages (take N times) rl0 = (repeat true N, rlN)).
  { unfold rl0, NewRateLimiter. rewrite AllowMessages_below_limit.
    - rewrite HlenN. reflexivity.
    - simpl. lia.
    - simpl. intros a b Ha Hb. apply Hwin; eapply In_take; eassumption. }
  split; [exact Hfirst|]. split.
  - rewrite <- (take_drop N times) at 1.
    rewrite AllowMessages_app, Hfirst. simpl.
    destruct (drop N times) as [|now [|? ?]] eqn:Hdrop;
      try (apply (f_equal length) in Hdrop; rewrite length_drop in Hdrop;
           simpl in Hdrop; lia).
    simpl. rewrite AllowMessage_at_limit.
    + reflexivity.
    + simpl. lia.
    + simpl. intros t Ht. apply Hwin.
      * rewrite <- (take_drop N times), Hdrop. apply in_or_app. right. now left.
      * eapply In_take; eassumption.
  - intros HN Hold.
    assert (HW : 0 < W).
    { destruct times as [|x times']; [discriminate|].
      specialize (Hwin x x (or_introl eq_refl) (or_introl eq_refl)). lia. }
    rewrite AllowMessage_after_window; [reflexivity| | |].
    + simpl. lia.
    + simpl. now apply positive_not_MinInt64.
    + intros t Ht. specialize (Hold t Ht). simpl. lia.
Qed.

Lemma AllowMessage_burst_witness :
  AllowMessages [0; 10; 20] (NewRateLimiter (Z.of_nat 2) 60)
  = (repeat true 2 ++ [false],
     {| timestamps := take 2 [0; 10; 20];
        maxMessages := Z.of_nat 2; windowDuration := 60 |}).
Proof.
  refine (proj1 (proj2 (AllowMessage_burst 2 60 [0; 10; 20] 100 eq_refl _))).
  intros a b Ha Hb. simpl in Ha, Hb. intuition lia.
Defined.

(** C4, as stated, fails for a timestamp exactly [windowDuration] old: it
    lies in the closed interval and the purge removes it. *)
Lemma purge_closed_window_counterexample :
  let rl := {| timestamps := [0; 30]; maxMessages := 10; windowDuration := 60 |} in
  timestamps (purge 60 rl) = [30] /\
  closed_window 60 rl = [0; 30] /\
  timestamps (purge 60 rl) <> closed_window 60 rl.
Proof. vm_compute. repeat split; congruence. Qed.

(** The wrap of the negation: with [windowDuration = math.MinInt64] the
    cutoff lies [2 ^ 63] nanoseconds before [now], and recent timestamps are
    kept. *)
Example purge_MinInt64 :
  timestamps (purge 60 {| timestamps := [0; 30]; maxMessages := 10;
                          windowDuration := MinInt64 |})
  = [0; 30]
  /\ fst (AllowMessages [0; 10] (NewRateLimiter 1 MinInt64)) = [true; false].
Proof. vm_compute. split; reflexivity. Qed.

(** C4, amended. After the purge of [AllowMessage] at [now], for a limiter
    whose timestamps are not in the future, the stored timestamps are the
    previously stored ones of the half-open interval
    [(now - windowDuration, now]], in their order; for
    [windowDuration = math.MinInt64], whose negation wraps around, the
    interval is [(now + math.MinInt64, now]]. The admission check of
    [AllowMessage] is made on the purged limiter. *)
Theorem purge_half_open_window (now : Z) (rl : RateLimiter) :
  (forall t, In t (timestamps rl) -> t <= now) ->
  let lower :=
    if windowDuration rl =? MinInt64 then now + MinInt64
    else now - windowDuration rl in
  timestamps (purge now rl)
  = List.filter (fun t => (lower <? t) && (t <=? now)) (timestamps rl)
  /\ (forall t, In t (timestamps (purge now rl)) <->
                In t (timestamps rl) /\ lower < t <= now)
  /\ AllowMessage now rl
     = if maxMessages rl <=? Z.of_nat (length (timestamps (purge now rl)))
       then (false, purge now rl)
       else (true, {| timestamps := timestamps (purge now rl) ++ [now];
                      maxMessages := maxMessages rl;
                      windowDuration := windowDuration rl |}).
Proof.
  intros Hpast lower.
  assert (Hlower : cutoff_at now rl = lower).
  { unfold lower, cutoff_at, neg_Duration.
    destruct (windowDuration rl =? MinInt64); lia. }
  assert (Heq : timestamps (purge now rl)
                = List.filter (fun t => (lower <? t) && (t <=? now))
                    (timestamps rl)).
  { rewrite purge_timestamps_cutoff, Hlower. clear Hlower.
    induction (timestamps rl) as [|t ts IH]; simpl; [reflexivity|].
    assert (Ht : (t <=? now) = true) by (apply Z.leb_le, Hpast; now left).
    rewrite Ht, andb_true_r, IH; [reflexivity|].
    intros u Hu. apply Hpast. now right. }
  split; [exact Heq|]. split.
  - intros t. rewrite Heq, filter_In, andb_true_iff, Z.ltb_lt, Z.leb_le. tauto.
  - reflexivity.
Qed.

Lemma purge_half_open_window_witness :
  let rl := {| timestamps := [0; 30; 60];
               maxMessages := 10; windowDuration := 60 |} in
  timestamps (purge 60 rl)
  = List.filter (fun t => (60 - 60 <? t) && (t <=? 60)) (timestamps rl).
Proof.
  intros rl. refine (proj1 (purge_half_open_window 60 rl _)).
  intros t Ht. simpl in Ht. intuition lia.
Defined.

(** ** CommandHistory *)

Lemma AddAll_app (l1 l2 : list string) (ch : CommandHistory) :
  AddAll (l1 ++ l2) ch
  = match AddAll l1 ch with
    | Some ch' => AddAll l2 ch'
    | None => None
    end.
Proof.
  revert ch. induction l1 as [|c l1 IH]; intros ch; simpl; [reflexivity|].
  destruct (Add c ch); [apply IH | reflexivity].
Qed.

(** Below capacity [Add] appends. *)
Lemma Add_below_capacity (c : string) (ch : CommandHistory) :
  Z.of_nat (length (commands ch)) < maxSize ch ->
  Add c ch = Some {| commands := commands ch ++ [c]; maxSize := maxSize ch |}.
Proof.
  intros H. unfold Add.
  destruct (Z.leb_spec (maxSize ch) (Z.of_nat (length (commands ch))));
    [lia | reflexivity].
Qed.

(** At capacity [Add] drops the oldest entry, and only it. *)
Lemma Add_at_capacity (c oldest : string) (rest : list string) (size : Z) :
  size <= Z.of_nat (length (oldest :: rest)) ->
  Add c {| commands := oldest :: rest; maxSize := size |}
  = Some {| commands := rest ++ [c]; maxSize := size |}.
Proof.
  intros H. unfold Add. cbn [commands maxSize].
  destruct (Z.leb_spec size (Z.of_nat (length (oldest :: rest))));
    [reflexivity | lia].
Qed.

(** From an empty history of capacity [size >= 1], any sequence of [Add]
    leaves its last [size] elements. *)
Lemma AddAll_from_empty (size : Z) (cs : list string) :
  1 <= size ->
  AddAll cs {| commands := []; maxSize := size |}
  = Some {| commands := drop (length cs - Z.to_nat size) cs; maxSize := size |}.
Proof.
  intros Hsize. induction cs as [|c cs IH] using rev_ind; [reflexivity|].
  rewrite AddAll_app, IH. cbn [AddAll]. rewrite length_app. cbn [length].
  destruct (Nat.lt_ge_cases (length cs) (Z.to_nat size)) as [Hlt|Hge].
  - replace (length cs - Z.to_nat size)%nat with 0%nat by lia.
    replace (length cs + 1 - Z.to_nat size)%nat with 0%nat by lia.
    rewrite !drop_0, Add_below_capacity; [reflexivity|].
    cbn [commands maxSize]. lia.
  - destruct (lookup_lt_is_Some_2 cs (length cs - Z.to_nat size)) as [x Hx]; [lia|].
    rewrite (drop_S _ _ _ Hx), Add_at_capacity.
    + replace (length cs + 1 - Z.to_nat size)%nat
        with (S (length cs - Z.to_nat size)) by lia.
      rewrite drop_app_le by lia. reflexivity.
    + cbn [length]. rewrite length_drop. lia.
Qed.

(** C5. For a history of capacity [maxSize >= 1], after [maxSize + k] calls
    of [Add] with [k > 0], [GetHistory] returns the last [maxSize] entries
    added, in insertion order; after every number of calls the stored length
    is at most [maxSize]; and an [Add] at capacity drops the oldest entry
    and only it. *)
Theorem GetHistory_last_maxSize (size : Z) (k : nat) (cs : list string) :
  1 <= size ->
  (0 < k)%nat ->
  length cs = (Z.to_nat size + k)%nat ->
  exists ch0,
    NewCommandHistory size = Some ch0 /\
    (exists ch, AddAll cs ch0 = Some ch /\
                GetHistory ch = drop k cs /\
                length (GetHistory ch) = Z.to_nat size) /\
    (forall n, exists chn, AddAll (take n cs) ch0 = Some chn /\
                           Z.of_nat (length (GetHistory chn)) <= maxSize chn) /\
    (forall n chn c,
        AddAll (take n cs) ch0 = Some chn ->
        Z.of_nat (length (GetHistory chn)) = maxSize chn ->
        exists oldest rest,
          GetHistory chn = oldest :: rest /\
          Add c chn = Some {| commands := rest ++ [c]; maxSize := maxSize chn |}).
Proof.
  intros Hsize Hk Hlen. eexists. split.
  { unfold NewCommandHistory. destruct (Z.ltb_spec size 0); [lia | reflexivity]. }
  split; [|split].
  - eexists. split; [apply AddAll_from_empty; exact Hsize|].
    unfold GetHistory. cbn [commands].
    replace (length cs - Z.to_nat size)%nat with k by lia.
    split; [reflexivity|]. rewrite length_drop. lia.
  - intros n. eexists. split; [apply AddAll_from_empty; exact Hsize|].
    unfold GetHistory. cbn [commands maxSize]. rewrite length_drop. lia.
  - intros n chn c Hn Hfull. rewrite AddAll_from_empty in Hn by exact Hsize.
    injection Hn as <-. unfold GetHistory in *. cbn [commands maxSize] in *.
    destruct (drop _ _) as [|oldest rest] eqn:Hdrop; [simpl in Hfull; lia|].
    exists oldest, rest. split; [reflexivity|].
    apply Add_at_capacity. lia.
Qed.

Lemma GetHistory_last_maxSize_witness :
  exists ch0,
    NewCommandHistory 2 = Some ch0 /\
    exists ch, AddAll ["a"; "b"; "c"]%string ch0 = Some ch /\
               GetHistory ch = ["b"; "c"]%string.
Proof.
  destruct (GetHistory_last_maxSize 2 1 ["a"; "b"; "c"]%string)
    as (ch0 & Hnew & (ch & Hadd & Hget & _) & _); [lia | lia | reflexivity |].
  exists ch0. split; [exact Hnew|]. exists ch. split; [exact Hadd | exact Hget].
Defined.

(** C10. On a history built with [maxSize = 0] the first [Add] panics; on a
    history that [NewCommandHistory] built, no sequence of [Add] panics
    exactly when [maxSize >= 1]. *)
Theorem Add_panics_without_capacity :
  (exists ch0, NewCommandHistory 0 = Some ch0 /\ forall c, Add c ch0 = None) /\
  (forall size ch0,
      NewCommandHistory size = Some ch0 ->
      ((forall cs, AddAll cs ch0 <> None) <-> 1 <= size)).
Proof.
  split.
  - eexists. split; reflexivity.
  - intros size ch0 Hnew. unfold NewCommandHistory in Hnew.
    destruct (Z.ltb_spec size 0) as [|Hsize]; [discriminate|].
    injection Hnew as <-. split.
    + intros Htotal. destruct (Z.eq_dec size 0) as [->|]; [|lia].
      exfalso. apply (Htotal ["x"%string]). reflexivity.
    + intros H1 cs. rewrite AddAll_from_empty by exact H1. discriminate.
Qed.

Lemma Add_panics_without_capacity_witness :
  NewCommandHistory 5 = Some {| commands := []; maxSize := 5 |} /\
  AddAll ["a"; "b"]%string {| commands := []; maxSize := 5 |} <> None.
Proof.
  split; [reflexivity|].
  refine (proj2 (proj2 Add_panics_without_capacity 5 _ eq_refl) _ _). lia.
Defined.

(** ** ClientHub *)

Section Broadcast.

Variable msg : BroadcastMessage.
Variable write : Conn -> option string.

(** The writes of a broadcast pass go to the enumerated connections other
    than the sender, in the order of the enumeration, whatever the outcome
    of each write. *)
Lemma attempted_broadcast_range (order : list Conn) :
  attempted (broadcast_range order msg write)
  = filter (fun c => c ≠ Sender msg) order.
Proof.
  induction order as [|c order IH]; simpl; [reflexivity|].
  destruct (Nat.eqb_spec c (Sender msg)) as [Heq|Hne].
  - rewrite filter_cons_False by (intros H; apply H, Heq). exact IH.
  - rewrite filter_cons_True by exact Hne.
    destruct (write c); simpl; now rewrite IH.
Qed.

(** The payload reaches those of them whose write succeeds. *)
Lemma delivered_broadcast_range (order : list Conn) :
  delivered (broadcast_range order msg write)
  = (fun c => (c, Payload msg))
      <$> filter (fun c => c ≠ Sender msg ∧ write c = None) order.
Proof.
  induction order as [|c order IH]; simpl; [reflexivity|].
  destruct (Nat.eqb_spec c (Sender msg)) as [Heq|Hne].
  - rewrite filter_cons_False by (intros [H _]; apply H, Heq). exact IH.
  - destruct (write c) eqn:Hw; simpl.
    + rewrite filter_cons_False by (intros [_ H]; congruence). exact IH.
    + rewrite filter_cons_True by (split; assumption). simpl. now rewrite IH.
Qed.

(** Each failed write costs one line of the log and nothing else. *)
Lemma logged_broadcast_range (order : list Conn) :
  logged (broadcast_range order msg write)
  = length (filter (fun c => c ≠ Sender msg ∧ write c ≠ None) order).
Proof.
  induction order as [|c order IH]; simpl; [reflexivity|].
  destruct (Nat.eqb_spec c (Sender msg)) as [Heq|Hne].
  - rewrite filter_cons_False by (intros [H _]; apply H, Heq). exact IH.
  - destruct (write c) eqn:Hw; simpl.
    + rewrite filter_cons_True by (split; [assumption | congruence]).
      simpl. now rewrite IH.
    + rewrite filter_cons_False by (intros [_ H]; congruence). exact IH.
Qed.

End Broadcast.

(** Three members, the first one sends, the write to the second one fails:
    the third one still receives the payload. *)
Example broadcast_survives_failed_recipient :
  let write := fun c : Conn => if Nat.eqb c 2 then Some "broken pipe"%string else None in
  forall order,
    order ≡ₚ [1; 2; 3]%nat ->
    delivered (broadcast_range order {| Payload := "hi"; Sender := 1%nat |} write)
    = [(3%nat, "hi"%string)].
Proof.
  intros write order Hperm. rewrite delivered_broadcast_range.
  match goal with
  | |- _ <$> ?l = _ =>
      assert (Hf : l = [3%nat])
        by (apply Permutation_singleton_r; rewrite Hperm; reflexivity);
      rewrite Hf
  end.
  reflexivity.
Qed.

(** C8. A broadcast pass over the membership [M] of the hub, enumerated in
    any order, writes the payload once to every member other than the
    sender and never to the sender, whichever writes fail; the members whose
    write succeeds receive the payload; a failed write adds one line to the
    log; the membership is unchanged. *)
Theorem Run_broadcast_all_but_sender
    (range_keys : gmap Conn bool -> list Conn) (write : Conn -> option string)
    (h : ClientHub) (msg : BroadcastMessage) :
  range_keys (clients h) ≡ₚ elements (dom (clients h)) ->
  let evs := snd (Run_step range_keys write h (ReqBroadcast msg)) in
  fst (Run_step range_keys write h (ReqBroadcast msg)) = h /\
  NoDup (attempted evs) /\
  (forall c, c ∈ attempted evs <-> c ∈ dom (clients h) /\ c ≠ Sender msg) /\
  (Sender msg ∉ attempted evs) /\
  (forall c payload,
      (c, payload) ∈ delivered evs <->
      c ∈ dom (clients h) /\ c ≠ Sender msg /\ write c = None
      /\ payload = Payload msg) /\
  logged evs
  = length (filter (fun c => write c ≠ None) (attempted evs)).
Proof.
  intros Hperm evs. unfold evs. cbn [Run_step fst snd].
  rewrite attempted_broadcast_range, delivered_broadcast_range,
    logged_broadcast_range.
  assert (Hin : forall c, c ∈ range_keys (clients h) <-> c ∈ dom (clients h)).
  { intros c. rewrite Hperm. apply elem_of_elements. }
  assert (Hnd : NoDup (range_keys (clients h))).
  { rewrite Hperm. apply NoDup_elements. }
  split; [reflexivity|]. split; [now apply NoDup_filter|].
  split; [|split; [|split]].
  - intros c. rewrite list_elem_of_filter, Hin. tauto.
  - rewrite list_elem_of_filter. tauto.
  - intros c payload. rewrite list_elem_of_fmap. split.
    + intros (c' & Heq & Hc'). injection Heq as -> ->.
      apply list_elem_of_filter in Hc' as [[Hne Hok] Hc'].
      apply Hin in Hc'. tauto.
    + intros (Hc & Hne & Hok & ->). exists c. split; [reflexivity|].
      apply list_elem_of_filter. split; [tauto | now apply Hin].
  - rewrite list_filter_filter. f_equal. apply list_filter_iff. tauto.
Qed.

Lemma Run_broadcast_all_but_sender_witness :
  let h := {| clients := <[1%nat := true]> (<[2%nat := true]> (<[3%nat := true]> ∅)) |} in
  let msg := {| Payload := "hi"; Sender := 1%nat |} in
  let write := fun c : Conn => if Nat.eqb c 2 then Some "broken pipe"%string else None in
  let evs := snd (Run_step (fun m => elements (dom m)) write h (ReqBroadcast msg)) in
  3%nat ∈ attempted evs <-> 3%nat ∈ dom (clients h) /\ 3%nat ≠ Sender msg.
Proof.
  intros h msg write evs.
  refine (proj1 (proj2 (proj2
    (Run_broadcast_all_but_sender (fun m => elements (dom m)) write h msg _)))
    3%nat).
  reflexivity.
Defined.

(** ** The command processor *)

(** The sample of the README: 10 + 5. *)
Example evaluate_add_10_5 :
  Marshal (evaluate {| Command := "add"; A := f64_of_Z 10; B := f64_of_Z 5 |})
  = inl [("result"%string, JNumber (f64_of_Z 15));
         ("command"%string, JString "add")].
Proof. vm_compute. reflexivity. Qed.

(** A product that overflows is not serialised at all: [json.Marshal]
    fails. *)
Example evaluate_overflow :
  let big := S754_finite false (2 ^ 53 - 1)%positive 971 in
  Marshal (evaluate {| Command := "multiply"; A := big; B := big |})
  = inr "json: unsupported value: +Inf"%string.
Proof. vm_compute. reflexivity. Qed.

Lemma evaluate_error_or_result (req : CommandRequest) :
  (Error (evaluate req) <> EmptyString /\ Result (evaluate req) = f64_zero)
  \/ Error (evaluate req) = EmptyString.
Proof.
  unfold evaluate.
  repeat match goal with
         | |- context [if ?b then _ else _] => destruct b eqn:?
         end; cbn; auto; left; split; auto; discriminate.
Qed.

(** What holds of every request: a serialised response never has both
    members. *)
Lemma Marshal_evaluate_not_both (req : CommandRequest) :
  has_member "result" (Marshal (evaluate req))
  && has_member "error" (Marshal (evaluate req)) = false.
Proof.
  destruct (evaluate_error_or_result req) as [[_ Hres]|Herr]; unfold Marshal.
  - rewrite Hres. cbn. destruct (isEmptyValue_string _); reflexivity.
  - rewrite Herr. cbn.
    destruct (isEmptyValue_float _); [reflexivity|].
    destruct (Result (evaluate req)) as [|[|]| |]; cbn; try reflexivity.
Qed.

(** C2 fails on the code for a result equal to zero: the response of
    [0 + 0] (and of [2 - 2]) is serialised with neither a [result] nor an
    [error] member. *)
Theorem Marshal_zero_result_omitted :
  Marshal (evaluate {| Command := "add"; A := f64_zero; B := f64_zero |})
  = inl [("command"%string, JString "add")] /\
  Marshal (evaluate {| Command := "subtract"; A := f64_of_Z 2; B := f64_of_Z 2 |})
  = inl [("command"%string, JString "subtract")] /\
  has_member "result"
    (Marshal (evaluate {| Command := "add"; A := f64_zero; B := f64_zero |}))
  = false /\
  has_member "error"
    (Marshal (evaluate {| Command := "add"; A := f64_zero; B := f64_zero |}))
  = false.
Proof. vm_compute. repeat split; reflexivity. Qed.

(** C6. Whatever the operand [X], and for a divisor that is either zero of
    binary64, the request [divide X 0] is answered by the response with the
    members [command] and [error = "division by zero"] and without a
    [result]; [processCommand] returns its bytes and no error. *)
Theorem divide_by_zero_response
    (json_Unmarshal : string -> CommandRequest + string)
    (encode_float : float64 -> string) (encode_string : string -> string)
    (payload : string) (X : float64) (negative : bool) :
  let req := {| Command := "divide"; A := X; B := S754_zero negative |} in
  let obj := [("command"%string, JString "divide");
              ("error"%string, JString "division by zero")] in
  json_Unmarshal payload = inl req ->
  evaluate req
  = {| Result := f64_zero; RCommand := "divide"; Error := "division by zero" |} /\
  Marshal (evaluate req) = inl obj /\
  has_member "error" (Marshal (evaluate req)) = true /\
  has_member "result" (Marshal (evaluate req)) = false /\
  processCommand json_Unmarshal encode_float encode_string payload
  = inl (encode_object encode_float encode_string obj).
Proof.
  intros req obj Hreq.
  assert (Hev : evaluate req
                = {| Result := f64_zero; RCommand := "divide";
                     Error := "division by zero" |})
    by (destruct negative; reflexivity).
  assert (Hm : Marshal (evaluate req) = inl obj) by (rewrite Hev; reflexivity).
  repeat split; try assumption; try (rewrite Hm; reflexivity).
  unfold processCommand. rewrite Hreq. fold req. rewrite Hm. reflexivity.
Qed.

Lemma divide_by_zero_response_witness :
  let req := {| Command := "divide"; A := f64_of_Z 1; B := S754_zero false |} in
  Marshal (evaluate req)
  = inl [("command"%string, JString "divide");
         ("error"%string, JString "division by zero")].
Proof.
  intros req.
  exact (proj1 (proj2
    (divide_by_zero_response (fun _ => inl req) (fun _ => "0"%string)
       (fun s => s) "{}"%string (f64_of_Z 1) false eq_refl))).
Defined.

(** ** UTF-8 *)

Lemma byte_val_range (a : ascii) : 0 <= byte_val a < 256.
Proof. unfold byte_val. pose proof (N_ascii_bounded a). lia. Qed.

Lemma byte_val_of (z : Z) : 0 <= z < 256 -> byte_val (byte_of z) = z.
Proof.
  intros H. unfold byte_val, byte_of. rewrite N_ascii_embedding by lia. lia.
Qed.

Lemma byte_of_val (a : ascii) : byte_of (byte_val a) = a.
Proof. unfold byte_val, byte_of. rewrite N2Z.id. apply ascii_N_embedding. Qed.

(** Decide one comparison of the goal and discard the impossible case. *)
Ltac zcase :=
  match goal with
  | |- context [Z.leb ?a ?b] => destruct (Z.leb_spec a b); try lia
  | |- context [Z.ltb ?a ?b] => destruct (Z.ltb_spec a b); try lia
  | |- context [Z.eqb ?a ?b] => destruct (Z.eqb_spec a b); try lia
  end; cbn [andb orb negb].

Lemma first_inv (b0 lo hi : Z) (w : width) :
  first b0 = Some (w, lo, hi) ->
  0x80 <= lo /\ hi <= 0xBF /\
  match w with
  | W2 => 0xC2 <= b0 <= 0xDF
  | W3 => 0xE0 <= b0 <= 0xEF /\ (b0 = 0xE0 -> lo = 0xA0) /\ (b0 = 0xED -> hi = 0x9F)
  | W4 => 0xF0 <= b0 <= 0xF4 /\ (b0 = 0xF0 -> lo = 0x90) /\ (b0 = 0xF4 -> hi = 0x8F)
  end.
Proof.
  unfold first. repeat zcase; intros Heq; inversion Heq; subst; lia.
Qed.

Lemma first_W2 (b0 : Z) :
  0xC2 <= b0 <= 0xDF -> first b0 = Some (W2, 0x80, 0xBF).
Proof. intros Hb. unfold first. repeat zcase; reflexivity. Qed.

Lemma first_W3 (b0 : Z) :
  0xE0 <= b0 <= 0xEF ->
  first b0 = Some (W3, if b0 =? 0xE0 then 0xA0 else 0x80,
                       if b0 =? 0xED then 0x9F else 0xBF).
Proof. intros Hb. unfold first. repeat zcase; reflexivity. Qed.

Lemma first_W4 (b0 : Z) :
  0xF0 <= b0 <= 0xF4 ->
  first b0 = Some (W4, if b0 =? 0xF0 then 0x90 else 0x80,
                       if b0 =? 0xF4 then 0x8F else 0xBF).
Proof. intros Hb. unfold first. repeat zcase; reflexivity. Qed.

Lemma between_true (lo hi : Z) (a : ascii) :
  lo <= byte_val a <= hi -> between lo hi a = true.
Proof. intros Hb. unfold between. repeat zcase; reflexivity. Qed.

(** The four shapes of a well-formed encoding, as [runes_of_string] reads
    them. *)
Lemma runes_1 (a0 : ascii) (s : string) :
  byte_val a0 < 0x80 ->
  runes_of_string (String a0 s) = byte_val a0 :: runes_of_string s.
Proof. intros Hb. cbn [runes_of_string]. zcase. reflexivity. Qed.

Lemma runes_2 (a0 a1 : ascii) (s : string) :
  0xC2 <= byte_val a0 <= 0xDF ->
  0x80 <= byte_val a1 <= 0xBF ->
  runes_of_string (String a0 (String a1 s))
  = ((byte_val a0 - 0xC0) * 64 + low6 a1) :: runes_of_string s.
Proof.
  intros H0 H1. cbn [runes_of_string]. zcase.
  rewrite first_W2, between_true by assumption. reflexivity.
Qed.

Lemma runes_3 (a0 a1 a2 : ascii) (s : string) :
  0xE0 <= byte_val a0 <= 0xEF ->
  (if byte_val a0 =? 0xE0 then 0xA0 else 0x80) <= byte_val a1
    <= (if byte_val a0 =? 0xED then 0x9F else 0xBF) ->
  0x80 <= byte_val a2 <= 0xBF ->
  runes_of_string (String a0 (String a1 (String a2 s)))
  = ((byte_val a0 - 0xE0) * 4096 + low6 a1 * 64 + low6 a2)
      :: runes_of_string s.
Proof.
  intros H0 H1 H2. cbn [runes_of_string]. zcase.
  rewrite first_W3, !between_true by assumption. reflexivity.
Qed.

Lemma runes_4 (a0 a1 a2 a3 : ascii) (s : string) :
  0xF0 <= byte_val a0 <= 0xF4 ->
  (if byte_val a0 =? 0xF0 then 0x90 else 0x80) <= byte_val a1
    <= (if byte_val a0 =? 0xF4 then 0x8F else 0xBF) ->
  0x80 <= byte_val a2 <= 0xBF ->
  0x80 <= byte_val a3 <= 0xBF ->
  runes_of_string (String a0 (String a1 (String a2 (String a3 s))))
  = ((byte_val a0 - 0xF0) * 262144 + low6 a1 * 4096 + low6 a2 * 64 + low6 a3)
      :: runes_of_string s.
Proof.
  intros H0 H1 H2 H3. cbn [runes_of_string]. zcase.
  rewrite first_W4, !between_true by assumption. reflexivity.
Qed.

Lemma is_scalar_spec (r : Z) :
  is_scalar r = true <-> 0 <= r <= 0x10FFFF /\ (r < 0xD800 \/ 0xDFFF < r).
Proof.
  unfold is_scalar, MaxRune. split.
  - repeat zcase; intros Hs; try discriminate; lia.
  - intros Hs. repeat zcase; reflexivity.
Qed.

(** Linear arithmetic with quotients and remainders by constants. *)
Ltac dlia := Z.div_mod_to_equations; lia.

(** Decoding the encoding of a scalar value gives it back. *)
Lemma runes_encode_rune (r : Z) (rest : string) :
  is_scalar r = true ->
  runes_of_string (string_of_bytes (encode_rune r) rest)
  = r :: runes_of_string rest.
Proof.
  intros Hs. apply is_scalar_spec in Hs. unfold encode_rune, MaxRune.
  repeat zcase; cbn [string_of_bytes];
    match goal with
    | |- runes_of_string (String _ (String _ (String _ (String _ _)))) = _ =>
        rewrite runes_4
    | |- runes_of_string (String _ (String _ (String _ _))) = _ =>
        rewrite runes_3
    | |- runes_of_string (String _ (String _ _)) = _ => rewrite runes_2
    | |- _ => rewrite runes_1
    end;
    unfold low6; rewrite ?byte_val_of by dlia; repeat zcase; try dlia;
    f_equal; dlia.
Qed.

Lemma runes_of_string_of_runes (runes : list Z) :
  forallb is_scalar runes = true ->
  runes_of_string (string_of_runes runes) = runes.
Proof.
  induction runes as [|r runes IH]; intros Hs; [reflexivity|].
  cbn [forallb] in Hs. apply andb_true_iff in Hs as [Hr Hs].
  cbn [string_of_runes]. rewrite runes_encode_rune by exact Hr.
  now rewrite IH.
Qed.

Lemma between_inv (lo hi : Z) (a : ascii) :
  between lo hi a = true -> lo <= byte_val a <= hi.
Proof. unfold between. repeat zcase; intros Hb; try discriminate; lia. Qed.

(** [runes_of_string] reads one scalar value off a string that is not
    empty, and goes on with a shorter string. *)
Lemma runes_of_string_step (a0 : ascii) (s0 : string) :
  exists r rest,
    runes_of_string (String a0 s0) = r :: runes_of_string rest /\
    is_scalar r = true /\
    (String.length rest <= String.length s0)%nat.
Proof.
  pose proof (byte_val_range a0) as R0.
  assert (Hinvalid : exists r rest,
             RuneError :: runes_of_string s0 = r :: runes_of_string rest /\
             is_scalar r = true /\
             (String.length rest <= String.length s0)%nat).
  { exists RuneError, s0. split; [reflexivity|]. split; [reflexivity | lia]. }
  cbn [runes_of_string]. cbv zeta. zcase.
  { exists (byte_val a0), s0. split; [reflexivity|].
    split; [apply is_scalar_spec; lia | lia]. }
  destruct (first (byte_val a0)) as [[[w lo] hi]|] eqn:Hf; [|exact Hinvalid].
  apply first_inv in Hf.
  destruct s0 as [|a1 s1]; [exact Hinvalid|].
  destruct (between lo hi a1) eqn:H1; [apply between_inv in H1|exact Hinvalid].
  destruct w.
  - exists ((byte_val a0 - 0xC0) * 64 + low6 a1), s1.
    split; [now destruct s1|].
    split; [apply is_scalar_spec; unfold low6; lia | simpl; lia].
  - destruct s1 as [|a2 s2]; [exact Hinvalid|].
    destruct (between 0x80 0xBF a2) eqn:H2;
      [apply between_inv in H2|exact Hinvalid].
    exists ((byte_val a0 - 0xE0) * 4096 + low6 a1 * 64 + low6 a2), s2.
    split; [now destruct s2|].
    split; [apply is_scalar_spec; unfold low6; lia | simpl; lia].
  - destruct s1 as [|a2 s2]; [exact Hinvalid|].
    destruct (between 0x80 0xBF a2) eqn:H2;
      [apply between_inv in H2|exact Hinvalid].
    destruct s2 as [|a3 s3]; [exact Hinvalid|].
    destruct (between 0x80 0xBF a3) eqn:H3;
      [apply between_inv in H3|exact Hinvalid].
    exists ((byte_val a0 - 0xF0) * 262144 + low6 a1 * 4096
            + low6 a2 * 64 + low6 a3), s3.
    split; [reflexivity|].
    split; [apply is_scalar_spec; unfold low6; lia | simpl; lia].
Qed.

(** Every rune of [[]rune(s)] is a scalar value. *)
Lemma runes_of_string_scalar (s : string) :
  forallb is_scalar (runes_of_string s) = true.
Proof.
  remember (String.length s) as n eqn:Hn.
  assert (Hle : (String.length s <= n)%nat) by lia. clear Hn.
  revert s Hle. induction n as [|n IH]; intros s Hle.
  - destruct s; [reflexivity | simpl in Hle; lia].
  - destruct s as [|a0 s0]; [reflexivity|].
    destruct (runes_of_string_step a0 s0) as (r & rest & -> & Hr & Hlen).
    cbn [forallb]. rewrite Hr. apply IH. simpl in Hle. lia.
Qed.

(** ** The reversal loop *)

Lemma index_middle (l1 l2 : list Z) (x : Z) (i : Z) :
  i = Z.of_nat (length l1) -> index (l1 ++ x :: l2) i = Some x.
Proof.
  intros ->. unfold index. destruct (Z.ltb_spec (Z.of_nat (length l1)) 0); [lia|].
  rewrite Nat2Z.id. now apply list_lookup_middle.
Qed.

Lemma set_index_middle (l1 l2 : list Z) (x y : Z) (i : Z) :
  i = Z.of_nat (length l1) ->
  set_index (l1 ++ x :: l2) i y = Some (l1 ++ y :: l2).
Proof.
  intros ->. unfold set_index. rewrite length_app. cbn [length].
  destruct (Z.leb_spec 0 (Z.of_nat (length l1))); [|lia].
  destruct (Z.ltb_spec (Z.of_nat (length l1))
              (Z.of_nat (length l1 + S (length l2)))); [|lia].
  cbn [andb]. rewrite Nat2Z.id.
  rewrite insert_app_r_alt by lia. now rewrite Nat.sub_diag.
Qed.

(** A list of two or more elements has a first and a last one. *)
Lemma first_and_last (m : list Z) :
  (2 <= length m)%nat -> exists x m' y, m = x :: m' ++ [y].
Proof.
  destruct m as [|x m]; cbn [length]; [lia|]. intros Hlen.
  destruct (exists_last (l := m)) as (m' & y & ->);
    [destruct m; [simpl in Hlen; lia | discriminate]|].
  now exists x, m', y.
Qed.

Lemma reverse_loop_done (fuel : nat) (i j : Z) (runes : list Z) :
  j <= i -> reverse_loop fuel i j runes = Some runes.
Proof.
  intros Hji. destruct fuel; cbn [reverse_loop];
    destruct (Z.ltb_spec i j); solve [lia | reflexivity].
Qed.

(** The loop, started on the two ends of the segment [m] of [p ++ m ++ q],
    reverses this segment and leaves the rest. *)
Lemma reverse_loop_segment (fuel : nat) (p m q : list Z) :
  (length m <= 2 * fuel)%nat ->
  reverse_loop fuel (Z.of_nat (length p))
    (Z.of_nat (length p) + Z.of_nat (length m) - 1) (p ++ m ++ q)
  = Some (p ++ rev m ++ q).
Proof.
  revert p m q. induction fuel as [|fuel IH]; intros p m q Hlen.
  - destruct m; [|simpl in Hlen; lia].
    rewrite reverse_loop_done by (cbn [length]; lia). reflexivity.
  - destruct (Nat.lt_ge_cases (length m) 2) as [Hshort|Hlong].
    + assert (Hrev : rev m = m) by (destruct m as [|x [|y m]]; [reflexivity..|simpl in Hshort; lia]).
      rewrite Hrev. rewrite reverse_loop_done by lia. reflexivity.
    + destruct (first_and_last m Hlong) as (x & m' & y & ->).
      rewrite length_cons, length_app in *. cbn [length] in *.
      cbn [reverse_loop].
      destruct (Z.ltb_spec (Z.of_nat (length p))
                  (Z.of_nat (length p) + Z.of_nat (S (length m' + 1)) - 1));
        [|lia].
      replace (p ++ (x :: m' ++ [y]) ++ q) with ((p ++ x :: m') ++ y :: q)
        by (rewrite <- !app_assoc; simpl; now rewrite <- app_assoc).
      rewrite index_middle by (rewrite length_app; cbn [length]; lia).
      replace ((p ++ x :: m') ++ y :: q) with (p ++ x :: (m' ++ y :: q))
        by (now rewrite <- app_assoc).
      rewrite index_middle, (set_index_middle p) by reflexivity.
      replace (p ++ y :: m' ++ y :: q) with ((p ++ y :: m') ++ y :: q)
        by (now rewrite <- app_assoc).
      rewrite set_index_middle by (rewrite length_app; cbn [length]; lia).
      replace ((p ++ y :: m') ++ x :: q) with ((p ++ [y]) ++ m' ++ (x :: q))
        by (rewrite <- !app_assoc; reflexivity).
      replace (Z.of_nat (length p) + 1) with (Z.of_nat (length (p ++ [y])))
        by (rewrite length_app; cbn [length]; lia).
      replace (Z.of_nat (length p) + Z.of_nat (S (length m' + 1)) - 1 - 1)
        with (Z.of_nat (length (p ++ [y])) + Z.of_nat (length m') - 1)
        by (rewrite length_app; cbn [length]; lia).
      rewrite IH by lia. f_equal.
      cbn [rev]. rewrite rev_app_distr. cbn [rev app].
      rewrite <- !app_assoc. reflexivity.
Qed.

(** The loop of the handler computes the reversed slice and never panics. *)
Lemma reverse_runes_rev (runes : list Z) : reverse_runes runes = Some (rev runes).
Proof.
  unfold reverse_runes.
  pose proof (reverse_loop_segment (length runes) [] runes []) as H.
  cbn [length app] in H. rewrite !app_nil_r in H.
  replace (Z.of_nat (length runes) - 1) with (Z.of_nat 0 + Z.of_nat (length runes) - 1)
    by lia.
  apply H. lia.
Qed.

(** ** The connection handler *)

Section HandlerProperties.

Variable strings_ToUpper : string -> string.
Variable json_Unmarshal : string -> CommandRequest + string.
Variable encode_float : float64 -> string.
Variable encode_string : string -> string.

Local Abbreviation body :=
  (responseBody strings_ToUpper json_Unmarshal encode_float encode_string).

(** The response body of a [REVERSE:] message. *)
Lemma responseBody_REVERSE (text : string) :
  body ("REVERSE:" ++ text)%string
  = Some (string_of_runes (rev (runes_of_string text))).
Proof.
  unfold responseBody.
  change (HasPrefix ("REVERSE:" ++ text)%string "UPPER:") with false.
  change (HasPrefix ("REVERSE:" ++ text)%string "REVERSE:") with true.
  change (TrimPrefix ("REVERSE:" ++ text)%string "REVERSE:") with text.
  cbv iota. now rewrite reverse_runes_rev.
Qed.

(** The response body of an [UPPER:] message. *)
Lemma responseBody_UPPER (text : string) :
  body ("UPPER:" ++ text)%string = Some (strings_ToUpper text).
Proof. reflexivity. Qed.

(** No text message makes the handler panic. *)
Lemma responseBody_total (payload : string) :
  exists b, body payload = Some b.
Proof.
  unfold responseBody.
  destruct (HasPrefix payload "UPPER:"); [eauto|].
  destruct (HasPrefix payload "REVERSE:").
  { rewrite reverse_runes_rev. eauto. }
  destruct (_ && _); [|eauto].
  destruct (processCommand _ _ _ _); eauto.
Qed.

(** A text message that starts with none of [UPPER:], [REVERSE:] and an
    opening brace is echoed. *)
Lemma responseBody_echo (payload : string) :
  HasPrefix payload "UPPER:" = false ->
  HasPrefix payload "REVERSE:" = false ->
  HasPrefix payload "{" = false ->
  body payload = Some payload.
Proof.
  intros HU HR HB. unfold responseBody.
  now rewrite HU, HR, HB, andb_false_r.
Qed.

(** A frame that is no text frame: nothing is sent, the counter stays. *)
Lemma read_loop_body_other (messageCounter msgType : Z) (payload : string)
    (write_ok : bool) :
  msgType <> TextMessage ->
  read_loop_body strings_ToUpper json_Unmarshal encode_float encode_string
    messageCounter (ReadMessage msgType payload) write_ok
  = Some (messageCounter, [], true).
Proof.
  intros Hne. unfold read_loop_body.
  destruct (Z.eqb_spec msgType TextMessage); [contradiction | reflexivity].
Qed.

(** A text frame: the counter advances and one reply carries its value. *)
Lemma read_loop_body_text (messageCounter : Z) (payload : string)
    (write_ok : bool) :
  exists b,
    read_loop_body strings_ToUpper json_Unmarshal encode_float encode_string
      messageCounter (ReadMessage TextMessage payload) write_ok
    = Some ((messageCounter + 1) mod 2 ^ 64,
            [WriteMessage TextMessage
               ("#" ++ FormatUint ((messageCounter + 1) mod 2 ^ 64)
                    ++ " " ++ b)%string],
            write_ok).
Proof.
  destruct (responseBody_total payload) as [b Hb]. exists b.
  unfold read_loop_body. cbn [Z.eqb TextMessage Pos.eqb]. now rewrite Hb.
Qed.

End HandlerProperties.

Example REVERSE_hello :
  responseBody (fun s => s) (fun _ => inr EmptyString) (fun _ => EmptyString)
    (fun s => s) "REVERSE:hello"
  = Some "olleh"%string.
Proof. vm_compute. reflexivity. Qed.

(** [well_formedb] decides [well_formed]. *)
Lemma well_formedb_spec (s : string) : well_formedb s = true <-> well_formed s.
Proof.
  unfold well_formedb, well_formed. rewrite String.eqb_eq. split.
  - intros Heq. exists (runes_of_string s).
    split; [apply runes_of_string_scalar | now symmetry].
  - intros (runes & Hs & ->). now rewrite runes_of_string_of_runes.
Qed.

(** A byte that is no UTF-8 comes back from two reversals as the encoding of
    [RuneError]. *)
Example REVERSE_twice_invalid :
  let reverse := fun s => string_of_runes (rev (runes_of_string s)) in
  let s := String (byte_of 0xFF) EmptyString in
  reverse (reverse s)
  = String (byte_of 0xEF) (String (byte_of 0xBF) (String (byte_of 0xBD) EmptyString))
  /\ reverse (reverse s) <> s.
Proof. vm_compute. split; [reflexivity | discriminate]. Qed.

(** ** Well-formed text and the two conversions *)

Lemma byte_in_spec (lo hi : Z) (a : ascii) :
  byte_in lo hi a = true <-> lo <= byte_val a <= hi.
Proof.
  unfold byte_in. rewrite andb_true_iff, !Z.leb_le. tauto.
Qed.

Lemma byte_of_eq (z : Z) (a : ascii) : z = byte_val a -> byte_of z = a.
Proof. intros ->. apply byte_of_val. Qed.

(** An encoded character decodes to one scalar value, whose encoding it
    is. *)
Lemma utf8_char_codec (c : string) :
  utf8_char c = true ->
  exists r,
    is_scalar r = true /\
    (forall rest, runes_of_string (c ++ rest) = r :: runes_of_string rest) /\
    (forall tail, string_of_bytes (encode_rune r) tail = (c ++ tail)%string).
Proof.
  destruct c as [|a0 [|a1 [|a2 [|a3 [|a4 c]]]]]; try discriminate;
    cbn [utf8_char]; intros H;
    repeat first [ rewrite andb_true_iff in H | rewrite orb_true_iff in H
                 | rewrite byte_in_spec in H ].
  - exists (byte_val a0). pose proof (byte_val_range a0).
    split; [apply is_scalar_spec; lia|]. split.
    + intros rest. change (String a0 EmptyString ++ rest)%string with (String a0 rest).
      apply runes_1. lia.
    + intros tail. change (String a0 EmptyString ++ tail)%string with (String a0 tail).
      unfold encode_rune. repeat zcase. cbn [string_of_bytes].
      now rewrite byte_of_val.
  - exists ((byte_val a0 - 0xC0) * 64 + low6 a1). unfold low6.
    split; [apply is_scalar_spec; lia|]. split.
    + intros rest.
      change (String a0 (String a1 EmptyString) ++ rest)%string
        with (String a0 (String a1 rest)).
      rewrite runes_2 by lia. reflexivity.
    + intros tail.
      change (String a0 (String a1 EmptyString) ++ tail)%string
        with (String a0 (String a1 tail)).
      unfold encode_rune, MaxRune. repeat zcase. cbn [string_of_bytes].
      repeat (f_equal; try (apply byte_of_eq; dlia)).
  - exists ((byte_val a0 - 0xE0) * 4096 + low6 a1 * 64 + low6 a2). unfold low6.
    split; [apply is_scalar_spec; lia|]. split.
    + intros rest.
      change (String a0 (String a1 (String a2 EmptyString)) ++ rest)%string
        with (String a0 (String a1 (String a2 rest))).
      rewrite runes_3; [reflexivity | lia | repeat zcase; lia | lia].
    + intros tail.
      change (String a0 (String a1 (String a2 EmptyString)) ++ tail)%string
        with (String a0 (String a1 (String a2 tail))).
      unfold encode_rune, MaxRune. repeat zcase; cbn [string_of_bytes];
        repeat (f_equal; try (apply byte_of_eq; dlia)).
  - exists ((byte_val a0 - 0xF0) * 262144 + low6 a1 * 4096
            + low6 a2 * 64 + low6 a3). unfold low6.
    split; [apply is_scalar_spec; lia|]. split.
    + intros rest.
      change (String a0 (String a1 (String a2 (String a3 EmptyString))) ++ rest)%string
        with (String a0 (String a1 (String a2 (String a3 rest)))).
      rewrite runes_4; [reflexivity | lia | repeat zcase; lia | lia | lia].
    + intros tail.
      change (String a0 (String a1 (String a2 (String a3 EmptyString))) ++ tail)%string
        with (String a0 (String a1 (String a2 (String a3 tail)))).
      unfold encode_rune, MaxRune. repeat zcase; cbn [string_of_bytes];
        repeat (f_equal; try (apply byte_of_eq; dlia)).
Qed.

Lemma code_point_char (c : string) (r : Z) :
  (forall rest, runes_of_string (c ++ rest) = r :: runes_of_string rest) ->
  code_point c = r.
Proof.
  intros H. unfold code_point. specialize (H EmptyString).
  assert (Hc : (c ++ EmptyString)%string = c).
  { clear H. induction c as [|a c IH]; [reflexivity|].
    change (String a c ++ EmptyString)%string with (String a (c ++ EmptyString)).
    now rewrite IH. }
  rewrite Hc in H. now rewrite H.
Qed.

(** A text made of encoded characters decodes to their code points, which
    are scalar values, and these encode to the text. *)
Lemma runes_of_concat_chars (chars : list string) :
  forallb utf8_char chars = true ->
  runes_of_string (concat_chars chars) = map code_point chars /\
  forallb is_scalar (map code_point chars) = true /\
  string_of_runes (map code_point chars) = concat_chars chars.
Proof.
  induction chars as [|c chars IH]; intros H; [repeat split|].
  cbn [forallb] in H. apply andb_true_iff in H as [Hc Hs].
  destruct (IH Hs) as (Hdec & Hscalar & Henc).
  destruct (utf8_char_codec c Hc) as (r & Hr & Hrunes & Hbytes).
  pose proof (code_point_char c r Hrunes) as Hcp.
  cbn [concat_chars map forallb string_of_runes].
  rewrite Hcp, Hrunes, Hdec, Hr, Hscalar, Henc, Hbytes. repeat split.
Qed.

Lemma forallb_rev_true {X} (p : X -> bool) (l : list X) :
  forallb p l = true -> forallb p (rev l) = true.
Proof.
  intros H. apply forallb_forall. intros x Hx. apply in_rev in Hx.
  revert x Hx. now apply forallb_forall.
Qed.

(** The well-formed texts are the texts made of encoded characters:
    [string(runes)] of scalar values is such a text, and conversely. *)
Lemma well_formed_concat_chars (s : string) :
  well_formed s <->
  exists chars, forallb utf8_char chars = true /\ s = concat_chars chars.
Proof.
  split.
  - intros (runes & Hs & ->).
    exists (map (fun r => string_of_bytes (encode_rune r) EmptyString) runes).
    induction runes as [|r runes IH]; [split; reflexivity|].
    cbn [forallb] in Hs. apply andb_true_iff in Hs as [Hr Hs].
    destruct (IH Hs) as [Hvalid Heq]. cbn [map forallb concat_chars string_of_runes].
    rewrite Hvalid, andb_true_r, <- Heq. split.
    + apply is_scalar_spec in Hr. unfold encode_rune, MaxRune.
      repeat zcase; cbn [string_of_bytes utf8_char]; unfold byte_in;
        rewrite ?byte_val_of by dlia; repeat zcase; try reflexivity; dlia.
    + generalize (string_of_runes runes). generalize (encode_rune r).
      induction l as [|b l IHl]; intros tail; [reflexivity|].
      cbn [string_of_bytes].
      change (String (byte_of b) (string_of_bytes l EmptyString) ++ tail)%string
        with (String (byte_of b) (string_of_bytes l EmptyString ++ tail)).
      now rewrite IHl.
  - intros (chars & Hvalid & ->).
    destruct (runes_of_concat_chars chars Hvalid) as (_ & Hscalar & Henc).
    exists (map code_point chars). split; [exact Hscalar | now symmetry].
Qed.

(** C7. For a text made of well-formed encodings of Unicode scalar values
    only, the response body of [REVERSE:] is the text made of the same
    encoded characters in reverse order, so that its code points are those
    of the text reversed, and the response body of [REVERSE:] applied to it
    is the text again. *)
Theorem REVERSE_involution
    (strings_ToUpper : string -> string)
    (json_Unmarshal : string -> CommandRequest + string)
    (encode_float : float64 -> string) (encode_string : string -> string)
    (chars : list string) :
  forallb utf8_char chars = true ->
  let reverse := fun text =>
    responseBody strings_ToUpper json_Unmarshal encode_float encode_string
      ("REVERSE:" ++ text)%string in
  reverse (concat_chars chars) = Some (concat_chars (rev chars)) /\
  runes_of_string (concat_chars (rev chars))
  = rev (runes_of_string (concat_chars chars)) /\
  reverse (concat_chars (rev chars)) = Some (concat_chars chars).
Proof.
  intros Hvalid reverse. unfold reverse.
  pose proof (forallb_rev_true _ _ Hvalid) as Hvalid'.
  destruct (runes_of_concat_chars chars Hvalid) as (Hdec & _ & Henc).
  destruct (runes_of_concat_chars (rev chars) Hvalid') as (Hdec' & _ & Henc').
  split; [|split].
  - rewrite responseBody_REVERSE, Hdec, <- map_rev. now rewrite Henc'.
  - now rewrite Hdec', Hdec, map_rev.
  - rewrite responseBody_REVERSE, Hdec', <- map_rev, rev_involutive.
    now rewrite Henc.
Qed.

Lemma REVERSE_involution_witness :
  let chars :=
    [String (byte_of 0x68) EmptyString;
     String (byte_of 0xC3) (String (byte_of 0xA9) EmptyString);
     String (byte_of 0xE2) (String (byte_of 0x82) (String (byte_of 0xAC) EmptyString));
     String (byte_of 0xF0) (String (byte_of 0x9F) (String (byte_of 0x98)
       (String (byte_of 0x80) EmptyString)))] in
  responseBody (fun t => t) (fun _ => inr EmptyString)
    (fun _ => EmptyString) (fun t => t) ("REVERSE:" ++ concat_chars chars)%string
  = Some (concat_chars (rev chars)).
Proof.
  intros chars.
  refine (proj1 (REVERSE_involution (fun t => t) (fun _ => inr EmptyString)
                   (fun _ => EmptyString) (fun t => t) chars _)).
  reflexivity.
Defined.

(** The second scenario of the README, as the second message of the
    process. *)
Example read_loop_body_REVERSE_hello :
  read_loop_body (fun s => s) (fun _ => inr EmptyString) (fun _ => EmptyString)
    (fun s => s) 1 (ReadMessage TextMessage "REVERSE:hello") true
  = Some (2, [WriteMessage TextMessage "#2 olleh"], true).
Proof. vm_compute. reflexivity. Qed.

(** C1 fails on the code for the documented commands [HISTORY] and
    [BROADCAST:]: the read loop has no case for them, and both are answered
    by the echo of the message, the hub and the history being left alone. *)
Theorem HISTORY_and_BROADCAST_are_echoed
    (strings_ToUpper : string -> string)
    (json_Unmarshal : string -> CommandRequest + string)
    (encode_float : float64 -> string) (encode_string : string -> string)
    (messageCounter : Z) (write_ok : bool) (rest : string) :
  let step :=
    read_loop_body strings_ToUpper json_Unmarshal encode_float encode_string in
  let id := (messageCounter + 1) mod 2 ^ 64 in
  step messageCounter (ReadMessage TextMessage "HISTORY") write_ok
  = Some (id,
          [WriteMessage TextMessage ("#" ++ FormatUint id ++ " HISTORY")%string],
          write_ok)
  /\
  step messageCounter (ReadMessage TextMessage ("BROADCAST:" ++ rest)%string) write_ok
  = Some (id,
          [WriteMessage TextMessage
             ("#" ++ FormatUint id ++ " BROADCAST:" ++ rest)%string],
          write_ok).
Proof.
  intros step id. unfold step, read_loop_body. cbn [Z.eqb TextMessage Pos.eqb].
  fold id. split.
  - reflexivity.
  - rewrite responseBody_echo by reflexivity. reflexivity.
Qed.

(** C9. A frame whose type is not [TextMessage] is answered by nothing and
    leaves the message counter as it is; a text frame takes the next value
    of the counter and is answered by one text message that carries it. *)
Theorem non_text_frame_is_ignored
    (strings_ToUpper : string -> string)
    (json_Unmarshal : string -> CommandRequest + string)
    (encode_float : float64 -> string) (encode_string : string -> string)
    (messageCounter : Z) (msgType : Z) (payload : string) (write_ok : bool) :
  let step :=
    read_loop_body strings_ToUpper json_Unmarshal encode_float encode_string in
  (msgType <> TextMessage ->
   step messageCounter (ReadMessage msgType payload) write_ok
   = Some (messageCounter, [], true)) /\
  (exists body,
      let id := (messageCounter + 1) mod 2 ^ 64 in
      step messageCounter (ReadMessage TextMessage payload) write_ok
      = Some (id,
              [WriteMessage TextMessage ("#" ++ FormatUint id ++ " " ++ body)%string],
              write_ok)).
Proof.
  intros step. unfold step. split.
  - apply read_loop_body_other.
  - apply read_loop_body_text.
Qed.

Lemma non_text_frame_is_ignored_witness :
  read_loop_body (fun s => s) (fun _ => inr EmptyString) (fun _ => EmptyString)
    (fun s => s) 7 (ReadMessage BinaryMessage "REVERSE:hello") true
  = Some (7, [], true).
Proof.
  refine (proj1 (non_text_frame_is_ignored (fun s => s)
                   (fun _ => inr EmptyString) (fun _ => EmptyString)
                   (fun s => s) 7 BinaryMessage "REVERSE:hello" true) _).
  discriminate.
Defined.

(** Over a run of frames that are all read and all answered without error,
    the counter advances by the number of text frames and one reply is sent
    for each of them. *)
Lemma read_loop_counts_text_frames
    (strings_ToUpper : string -> string)
    (json_Unmarshal : string -> CommandRequest + string)
    (encode_float : float64 -> string) (encode_string : string -> string)
    (reads : list (ReadResult * bool)) (messageCounter : Z) :
  0 <= messageCounter < 2 ^ 64 ->
  (forall r ok, In (r, ok) reads -> r <> ReadError /\ ok = true) ->
  exists sent,
    read_loop strings_ToUpper json_Unmarshal encode_float encode_string
      messageCounter reads
    = Some ((messageCounter + Z.of_nat (text_frames reads)) mod 2 ^ 64, sent)
    /\ length (replies sent) = text_frames reads
    /\ length sent = text_frames reads.
Proof.
  revert messageCounter.
  induction reads as [|[r ok] reads IH]; intros counter Hrange Hall.
  - exists []. unfold text_frames. cbn [read_loop List.filter length replies].
    rewrite Z.add_0_r, Z.mod_small by exact Hrange. auto.
  - destruct (Hall r ok (or_introl eq_refl)) as [Hr ->].
    assert (Hall' : forall r' ok', In (r', ok') reads -> r' <> ReadError /\ ok' = true)
      by (intros r' ok' Hin; apply Hall; now right).
    destruct r as [|msgType payload]; [contradiction|].
    cbn [read_loop]. unfold text_frames. cbn [List.filter fst is_text].
    destruct (Z.eqb_spec msgType TextMessage) as [->|Hne].
    + destruct (read_loop_body_text strings_ToUpper json_Unmarshal
                  encode_float encode_string counter payload true)
        as [b ->].
      destruct (IH ((counter + 1) mod 2 ^ 64)) as (sent & -> & Hreplies & Hsent);
        [apply Z.mod_pos_bound; reflexivity | exact Hall' |].
      eexists. split; [|split].
      * assert (Hk : ((counter + 1) mod 2 ^ 64 + Z.of_nat (text_frames reads))
                       mod 2 ^ 64
                     = (counter + Z.of_nat (S (text_frames reads))) mod 2 ^ 64)
          by (rewrite Zplus_mod_idemp_l; f_equal; lia).
        rewrite Hk. reflexivity.
      * cbn [app replies length]. now rewrite Hreplies.
      * cbn [app length]. now rewrite Hsent.
    + rewrite read_loop_body_other by exact Hne.
      destruct (IH counter Hrange Hall') as (sent & -> & Hreplies & Hsent).
      exists sent. auto.
Qed.

(** ** The documented configuration *)

(** Ten messages a minute: of eleven messages one second apart the eleventh
    is refused; a message sent a minute after the tenth is accepted. *)
Example ten_messages_per_minute :
  let second := 1000000000 in
  let burst := map (fun k => Z.of_nat k * second) (seq 0 11) in
  fst (AllowMessages burst (NewRateLimiter 10 (60 * second)))
  = repeat true 10 ++ [false]
  /\ fst (AllowMessages (burst ++ [69 * second]) (NewRateLimiter 10 (60 * second)))
     = repeat true 10 ++ [false; true].
Proof. vm_compute. split; reflexivity. Qed.

(** The last five commands: of seven commands the first two are gone. *)
Example last_five_commands :
  match NewCommandHistory 5 with
  | Some ch0 =>
      option_map GetHistory
        (AddAll ["c1"; "c2"; "c3"; "c4"; "c5"; "c6"; "c7"]%string ch0)
  | None => None
  end
  = Some ["c3"; "c4"; "c5"; "c6"; "c7"]%string.
Proof. vm_compute. reflexivity. Qed.

(** * Further properties *)

(** ** RateLimiter *)

Lemma filter_length_le {X} (p : X -> bool) (l : list X) :
  (length (List.filter p l) <= length l)%nat.
Proof.
  induction l as [|x l IH]; simpl; [lia|]. destruct (p x); simpl; lia.
Qed.

Lemma filter_filter_implied {X} (p q : X -> bool) (l : list X) :
  (forall x, p x = true -> q x = true) ->
  List.filter p (List.filter q l) = List.filter p l.
Proof.
  intros Himp. induction l as [|x l IH]; simpl; [reflexivity|].
  destruct (q x) eqn:Hq; simpl.
  - now rewrite IH.
  - destruct (p x) eqn:Hp; [|exact IH].
    apply Himp in Hp. congruence.
Qed.

Lemma AllowMessage_keeps_bound (now : Z) (rl : RateLimiter) :
  Z.of_nat (length (timestamps rl)) <= Z.max 0 (maxMessages rl) ->
  let rl' := snd (AllowMessage now rl) in
  Z.of_nat (length (timestamps rl')) <= Z.max 0 (maxMessages rl') /\
  maxMessages rl' = maxMessages rl /\
  windowDuration rl' = windowDuration rl.
Proof.
  intros Hb. unfold AllowMessage.
  pose proof (filter_length_le (fun t => cutoff_at now rl <? t)
                (timestamps rl)) as Hlen.
  rewrite <- purge_timestamps_cutoff in Hlen.
  assert (HM : maxMessages (purge now rl) = maxMessages rl) by reflexivity.
  assert (HW : windowDuration (purge now rl) = windowDuration rl) by reflexivity.
  destruct (purge now rl) as [ts M W]. cbn [timestamps maxMessages windowDuration] in *.
  subst M W.
  destruct (Z.leb_spec (maxMessages rl) (Z.of_nat (length ts)));
    cbn [snd timestamps maxMessages windowDuration].
  - repeat split; lia.
  - rewrite length_app. cbn [length]. repeat split; lia.
Qed.

Lemma AllowMessages_keeps_bound (times : list Z) (rl0 : RateLimiter) :
  Z.of_nat (length (timestamps rl0)) <= Z.max 0 (maxMessages rl0) ->
  let rl := snd (AllowMessages times rl0) in
  Z.of_nat (length (timestamps rl)) <= Z.max 0 (maxMessages rl0) /\
  maxMessages rl = maxMessages rl0 /\
  windowDuration rl = windowDuration rl0.
Proof.
  revert rl0. induction times as [|now times IH]; intros rl0 Hb; cbn.
  - auto.
  - pose proof (AllowMessage_keeps_bound now rl0 Hb) as (Hb' & HM & HW).
    destruct (AllowMessage now rl0) as [ok rl1]. cbn [snd] in *.
    rewrite HM in Hb'. specialize (IH rl1). rewrite HM in IH.
    specialize (IH Hb'). cbv zeta in IH.
    destruct (AllowMessages times rl1) as [oks rl2]. cbn [snd] in *.
    rewrite HW in IH. exact IH.
Qed.

(** From a fresh limiter, whatever the instants of the calls, the number of
    stored timestamps never exceeds [maxMessages] (nor zero, for a negative
    [maxMessages]), and the two settings are never changed. *)
Theorem timestamps_bounded_by_maxMessages (M W : Z) (times : list Z) :
  let rl := snd (AllowMessages times (NewRateLimiter M W)) in
  Z.of_nat (length (timestamps rl)) <= Z.max 0 M /\
  maxMessages rl = M /\ windowDuration rl = W.
Proof.
  apply (AllowMessages_keeps_bound times (NewRateLimiter M W)). cbn. lia.
Qed.

(** One call keeps the stored timestamps equal to the accepted instants
    later than the cutoff, when the cutoffs do not go back. *)
Lemma AllowMessage_window (now c : Z) (rl : RateLimiter) (acc : list Z) :
  0 < windowDuration rl ->
  c <= now - windowDuration rl ->
  timestamps rl = List.filter (fun t => c <? t) acc ->
  timestamps (snd (AllowMessage now rl))
  = List.filter (fun t => now - windowDuration rl <? t)
      (acc ++ if fst (AllowMessage now rl) then [now] else []).
Proof.
  intros HW Hc Hts. unfold AllowMessage.
  assert (Hp : timestamps (purge now rl)
               = List.filter (fun t => now - windowDuration rl <? t) acc).
  { rewrite purge_timestamps, Hts by now apply positive_not_MinInt64.
    apply filter_filter_implied.
    intros t Ht. apply Z.ltb_lt in Ht. apply Z.ltb_lt. lia. }
  destruct (Z.leb_spec (maxMessages (purge now rl))
              (Z.of_nat (length (timestamps (purge now rl))))); cbn [fst snd].
  - now rewrite app_nil_r.
  - cbn [timestamps]. rewrite List.filter_app, Hp. cbn [List.filter].
    destruct (Z.ltb_spec (now - windowDuration rl) now); [reflexivity | lia].
Qed.

Lemma accepted_window (times : list Z) :
  forall (rl : RateLimiter) (acc : list Z) (c last : Z),
    0 < windowDuration rl ->
    timestamps rl = List.filter (fun t => c <? t) acc ->
    StronglySorted Z.le times ->
    (forall t, In t times -> c <= t - windowDuration rl) ->
    List.last times last = last ->
    times <> [] ->
    timestamps (snd (AllowMessages times rl))
    = List.filter (fun t => last - windowDuration rl <? t)
        (acc ++ accepted times rl).
Proof.
  induction times as [|now times IH]; intros rl acc c last HW Hts Hs Hc Hlast Hne;
    [contradiction|].
  pose proof (AllowMessage_window now c rl acc HW (Hc now (or_introl eq_refl)) Hts)
    as Hstep.
  pose proof (AllowMessage_keeps_bound now rl) as Hkeep.
  cbn [AllowMessages accepted].
  destruct (AllowMessage now rl) as [ok rl1] eqn:Hcall. cbn [fst snd] in *.
  assert (HW1 : windowDuration rl1 = windowDuration rl).
  { unfold AllowMessage in Hcall.
    destruct (_ <=? _) in Hcall; injection Hcall as _ <-; reflexivity. }
  destruct times as [|next times].
  - cbn in Hlast. subst last. cbn. destruct ok; exact Hstep.
  - apply StronglySorted_inv in Hs as [Hs Hall].
    specialize (IH rl1 (acc ++ if ok then [now] else [])
                  (now - windowDuration rl) last).
    rewrite HW1 in IH.
    destruct (AllowMessages (next :: times) rl1) as [oks rl2] eqn:Hrest.
    cbn [snd] in *.
    rewrite IH; try assumption.
    + destruct ok; [now rewrite <- app_assoc | now rewrite app_nil_r].
    + intros t Ht. rewrite Forall_forall in Hall.
      specialize (Hall t (proj2 (list_elem_of_In _ _) Ht)). lia.
    + discriminate.
Qed.

(** The guarantee of the sliding window. From a fresh limiter with a
    positive window and clock readings that do not go back, after each call
    the accepted calls of the last [windowDuration] (the instants later than
    [now - windowDuration]) number at most [maxMessages]. *)
Theorem accepted_in_window_bounded (M W : Z) (pre : list Z) (now : Z) :
  0 < W ->
  StronglySorted Z.le (pre ++ [now]) ->
  Z.of_nat (length (List.filter (fun t => now - W <? t)
                      (accepted (pre ++ [now]) (NewRateLimiter M W))))
  <= Z.max 0 M.
Proof.
  intros HW Hs.
  pose proof (accepted_window (pre ++ [now]) (NewRateLimiter M W) [] 
                (List.fold_right Z.min now (pre ++ [now]) - W) now) as H.
  cbn [windowDuration NewRateLimiter timestamps List.filter app] in H.
  rewrite <- H.
  - apply (AllowMessages_keeps_bound (pre ++ [now]) (NewRateLimiter M W)).
    cbn. lia.
  - exact HW.
  - reflexivity.
  - exact Hs.
  - intros t Ht. 
    assert (Hmin : forall l d, In t l -> List.fold_right Z.min d l <= t).
    { induction l as [|x l IHl]; intros d Hin; [destruct Hin|].
      destruct Hin as [->|Hin]; cbn; [lia|].
      specialize (IHl d Hin). lia. }
    specialize (Hmin _ now Ht). lia.
  - apply last_last.
  - destruct pre; discriminate.
Qed.

Lemma accepted_in_window_bounded_witness :
  Z.of_nat (length (List.filter (fun t => 70 - 60 <? t)
                      (accepted ([0; 10; 20; 65] ++ [70]) (NewRateLimiter 2 60))))
  <= Z.max 0 2.
Proof.
  apply (accepted_in_window_bounded 2 60 [0; 10; 20; 65] 70); [lia|].
  repeat constructor; lia.
Defined.


Lemma StronglySorted_snoc (pre : list Z) (now : Z) :
  StronglySorted Z.le (pre ++ [now]) ->
  StronglySorted Z.le pre /\ forall t, In t pre -> t <= now.
Proof.
  induction pre as [|x pre IH]; cbn [app]; intros Hs.
  - split; [constructor | intros t []].
  - apply StronglySorted_inv in Hs as [Hs Hall].
    destruct (IH Hs) as [Hpre Hle]. split.
    + constructor; [exact Hpre|].
      apply Forall_forall. intros t Ht. rewrite Forall_forall in Hall.
      apply Hall. apply list_elem_of_In. apply in_or_app. left.
      now apply list_elem_of_In.
    + intros t [<-|Ht]; [|now apply Hle].
      rewrite Forall_forall in Hall. apply Hall, list_elem_of_In, in_or_app.
      right. now left.
Qed.

(** The decision of [AllowMessage], for a fresh limiter with a positive
    window and clock readings that do not go back: a call is accepted
    exactly when fewer than [maxMessages] of the earlier calls were accepted
    at instants later than [now - windowDuration]. *)
Theorem AllowMessage_accepts_iff (M W : Z) (pre : list Z) (now : Z) :
  0 < W ->
  StronglySorted Z.le (pre ++ [now]) ->
  let rl := snd (AllowMessages pre (NewRateLimiter M W)) in
  fst (AllowMessage now rl) = true <->
  Z.of_nat (length (List.filter (fun t => now - W <? t)
                      (accepted pre (NewRateLimiter M W)))) < M.
Proof.
  intros HW Hs rl.
  destruct (StronglySorted_snoc pre now Hs) as [Hpre Hle].
  destruct (AllowMessages_keeps_bound pre (NewRateLimiter M W)) as (_ & HM & HWd);
    [cbn; lia|].
  fold rl in HM, HWd. cbn [maxMessages windowDuration NewRateLimiter] in HM, HWd.
  assert (Hts : timestamps (purge now rl)
                = List.filter (fun t => now - W <? t)
                    (accepted pre (NewRateLimiter M W))).
  { rewrite purge_timestamps, HWd
      by (rewrite HWd; now apply positive_not_MinInt64).
    destruct pre as [|x pre'] using rev_ind; [reflexivity|]. clear IHpre'.
    unfold rl.
    rewrite (accepted_window (pre' ++ [x]) (NewRateLimiter M W) []
               (List.fold_right Z.min x (pre' ++ [x]) - W) x).
    - cbn [windowDuration NewRateLimiter app].
      apply filter_filter_implied. intros t Ht. apply Z.ltb_lt in Ht.
      apply Z.ltb_lt.
      assert (Hx : x <= now) by (apply Hle, in_or_app; right; now left).
      lia.
    - exact HW.
    - reflexivity.
    - exact Hpre.
    - intros t Ht. cbn [windowDuration NewRateLimiter].
      assert (Hmin : forall l d, In t l -> List.fold_right Z.min d l <= t).
      { induction l as [|y l IHl]; intros d Hin; [destruct Hin|].
        destruct Hin as [->|Hin]; cbn; [lia|].
        specialize (IHl d Hin). lia. }
      specialize (Hmin _ x Ht). lia.
    - apply last_last.
    - destruct pre'; discriminate. }
  unfold AllowMessage. change (maxMessages (purge now rl)) with (maxMessages rl).
  rewrite HM, Hts.
  destruct (Z.leb_spec M (Z.of_nat (length (List.filter (fun t => now - W <? t)
                                              (accepted pre (NewRateLimiter M W))))));
    cbn [fst]; split; intros; solve [discriminate | lia | reflexivity].
Qed.

Lemma AllowMessage_accepts_iff_witness :
  let rl := snd (AllowMessages [0; 10; 20] (NewRateLimiter 2 60)) in
  fst (AllowMessage 65 rl) = true <->
  Z.of_nat (length (List.filter (fun t => 65 - 60 <? t)
                      (accepted [0; 10; 20] (NewRateLimiter 2 60)))) < 2.
Proof.
  apply (AllowMessage_accepts_iff 2 60 [0; 10; 20] 65); [lia|].
  repeat constructor; lia.
Defined.


Lemma purge_purge (t1 t2 : Z) (rl : RateLimiter) :
  t1 <= t2 -> purge t2 (purge t1 rl) = purge t2 rl.
Proof.
  intros Hle.
  assert (Hts : timestamps (purge t2 (purge t1 rl)) = timestamps (purge t2 rl)).
  { rewrite !purge_timestamps_cutoff. unfold cutoff_at.
    change (windowDuration (purge t1 rl)) with (windowDuration rl).
    apply filter_filter_implied. intros t Ht.
    apply Z.ltb_lt in Ht. apply Z.ltb_lt. lia. }
  unfold purge at 1 3. unfold purge in Hts at 1 3. cbn [timestamps] in Hts.
  change (windowDuration (purge t1 rl)) with (windowDuration rl) in *.
  change (maxMessages (purge t1 rl)) with (maxMessages rl).
  now rewrite Hts.
Qed.

(** A refused call leaves no trace: any later call answers, and leaves the
    limiter, as if the refused call had not been made. *)
Theorem refused_call_leaves_no_trace (now later : Z) (rl : RateLimiter) :
  fst (AllowMessage now rl) = false ->
  now <= later ->
  AllowMessage later (snd (AllowMessage now rl)) = AllowMessage later rl.
Proof.
  intros Hno Hle. unfold AllowMessage in Hno |- * at 2.
  destruct (maxMessages (purge now rl) <=? _); [|discriminate].
  cbn [snd]. unfold AllowMessage. now rewrite purge_purge.
Qed.

Lemma refused_call_leaves_no_trace_witness :
  let rl := {| timestamps := [0; 10]; maxMessages := 2; windowDuration := 60 |} in
  AllowMessage 65 (snd (AllowMessage 20 rl)) = AllowMessage 65 rl.
Proof.
  intros rl. apply (refused_call_leaves_no_trace 20 65 rl); [reflexivity | lia].
Defined.

(** A limiter whose [maxMessages] is zero or negative refuses every call. *)
Theorem nonpositive_limit_refuses_all (times : list Z) (rl : RateLimiter) :
  maxMessages rl <= 0 ->
  fst (AllowMessages times rl) = repeat false (length times) /\
  accepted times rl = [].
Proof.
  revert rl. induction times as [|now times IH]; intros rl HM; [split; reflexivity|].
  cbn [AllowMessages accepted length repeat].
  assert (Hcall : AllowMessage now rl = (false, purge now rl)).
  { unfold AllowMessage.
    destruct (Z.leb_spec (maxMessages (purge now rl))
                (Z.of_nat (length (timestamps (purge now rl)))));
      [reflexivity|]. cbn [maxMessages purge] in *. lia. }
  rewrite Hcall. destruct (IH (purge now rl) HM) as [Hoks Hacc].
  destruct (AllowMessages times (purge now rl)) as [oks rl']. cbn [fst] in *.
  now rewrite Hoks, Hacc.
Qed.

Lemma nonpositive_limit_refuses_all_witness :
  fst (AllowMessages [0; 100; 200] (NewRateLimiter 0 60)) = repeat false 3.
Proof.
  refine (proj1 (nonpositive_limit_refuses_all [0; 100; 200]
                   (NewRateLimiter 0 60) _)).
  cbn. lia.
Defined.

(** ** CommandHistory *)

(** Up to the capacity nothing is evicted: after at most [maxSize] calls of
    [Add] on a new history, [GetHistory] returns every entry added, in
    order. *)
Theorem GetHistory_below_capacity (size : Z) (cs : list string) :
  Z.of_nat (length cs) <= size ->
  exists ch0 ch,
    NewCommandHistory size = Some ch0 /\
    AddAll cs ch0 = Some ch /\
    GetHistory ch = cs /\
    maxSize ch = size.
Proof.
  intros Hlen. unfold NewCommandHistory.
  destruct (Z.ltb_spec size 0); [lia|]. eexists. eexists. split; [reflexivity|].
  assert (Hgen : forall done,
             Z.of_nat (length done + length cs) <= size ->
             AddAll cs {| commands := done; maxSize := size |}
             = Some {| commands := done ++ cs; maxSize := size |}).
  { clear Hlen. induction cs as [|c cs IH]; intros done Hlen; cbn [AddAll].
    - now rewrite app_nil_r.
    - rewrite Add_below_capacity by (cbn [commands maxSize length] in *; lia).
      cbn [commands maxSize]. rewrite IH.
      + now rewrite <- app_assoc.
      + rewrite length_app. cbn [length] in *. lia. }
  rewrite Hgen by (cbn [length]; lia). repeat split.
Qed.

Lemma GetHistory_below_capacity_witness :
  exists ch0 ch,
    NewCommandHistory 5 = Some ch0 /\
    AddAll ["a"; "b"]%string ch0 = Some ch /\
    GetHistory ch = ["a"; "b"]%string /\
    maxSize ch = 5.
Proof.
  apply (GetHistory_below_capacity 5 ["a"; "b"]%string). cbn. lia.
Defined.

(** [Add] panics exactly on an empty history whose [maxSize] is zero or
    negative. Otherwise the new entry is the last one of the history, the
    capacity is unchanged, and the length grows by one below the capacity
    and stays the same from the capacity on. *)
Theorem Add_outcome (c : string) (ch : CommandHistory) :
  (Add c ch = None <-> commands ch = [] /\ maxSize ch <= 0) /\
  (forall ch',
      Add c ch = Some ch' ->
      List.last (GetHistory ch') c = c /\
      (exists older, GetHistory ch' = older ++ [c]) /\
      maxSize ch' = maxSize ch /\
      length (GetHistory ch')
      = if maxSize ch <=? Z.of_nat (length (GetHistory ch))
        then length (GetHistory ch) else S (length (GetHistory ch))).
Proof.
  unfold Add, GetHistory. destruct ch as [cmds size]. cbn [commands maxSize].
  destruct (Z.leb_spec size (Z.of_nat (length cmds))) as [Hfull|Hroom].
  - destruct cmds as [|oldest rest].
    + split; [split; [intros _; cbn in Hfull; split; [reflexivity | lia] | reflexivity]|].
      intros ch' Heq. discriminate.
    + split; [split; [discriminate | intros [Heq _]; discriminate]|].
      intros ch' Heq. injection Heq as <-. cbn [commands maxSize].
      rewrite last_last, length_app. cbn [length].
      repeat split; [eauto | lia].
  - split; [split; [discriminate | intros [-> Hs]; cbn in Hroom; lia]|].
    intros ch' Heq. injection Heq as <-. cbn [commands maxSize].
    rewrite last_last, length_app. cbn [length].
    repeat split; [eauto | lia].
Qed.

Lemma Add_outcome_witness :
  Add "c" {| commands := []; maxSize := 0 |} = None.
Proof.
  apply (proj1 (Add_outcome "c" {| commands := []; maxSize := 0 |})).
  split; [reflexivity | cbn; lia].
Defined.

(** ** ClientHub *)

(** The membership after one request. *)
Lemma Run_step_dom (range_keys : gmap Conn bool -> list Conn)
    (write : Conn -> option string) (h : ClientHub) (req : HubRequest)
    (conn : Conn) :
  conn ∈ dom (clients (fst (Run_step range_keys write h req))) <->
  match req with
  | ReqRegister c => c = conn \/ conn ∈ dom (clients h)
  | ReqUnregister c => c ≠ conn /\ conn ∈ dom (clients h)
  | ReqBroadcast _ => conn ∈ dom (clients h)
  end.
Proof.
  destruct req as [c|c|msg]; cbn [Run_step fst clients].
  - rewrite dom_insert_L, elem_of_union, elem_of_singleton.
    split; intros [H|H]; auto.
  - destruct (clients h !! c) eqn:Hc; cbn [fst clients].
    + rewrite dom_delete_L, elem_of_difference, elem_of_singleton.
      split; intros [H1 H2]; split; auto.
    + apply not_elem_of_dom in Hc. split; [|tauto].
      intros Hin. split; [|exact Hin]. intros ->. contradiction.
  - reflexivity.
Qed.

(** After any sequence of requests a connection is a member of the hub
    exactly when its last [Register] or [Unregister] was a [Register], or,
    without any, when it was a member before; broadcasts and the outcome of
    their writes do not matter. *)
Theorem Run_membership (range_keys : gmap Conn bool -> list Conn)
    (write : Conn -> option string) (reqs : list HubRequest) (h : ClientHub)
    (conn : Conn) :
  conn ∈ dom (clients (fst (Run range_keys write h reqs))) <->
  registered_after conn reqs (bool_decide (conn ∈ dom (clients h))) = true.
Proof.
  revert h. induction reqs as [|req reqs IH]; intros h.
  - cbn. now rewrite bool_decide_eq_true.
  - cbn [Run]. pose proof (Run_step_dom range_keys write h req conn) as Hstep.
    destruct (Run_step range_keys write h req) as [h1 evs]. cbn [fst] in Hstep.
    specialize (IH h1).
    destruct (Run range_keys write h1 reqs) as [h2 evs']. cbn [fst] in *.
    rewrite IH. clear IH.
    assert (Hb : bool_decide (conn ∈ dom (clients h1))
                 = match req with
                   | ReqRegister c =>
                       if Nat.eqb c conn then true
                       else bool_decide (conn ∈ dom (clients h))
                   | ReqUnregister c =>
                       if Nat.eqb c conn then false
                       else bool_decide (conn ∈ dom (clients h))
                   | ReqBroadcast _ => bool_decide (conn ∈ dom (clients h))
                   end).
    { destruct req as [c|c|msg].
      - destruct (Nat.eqb_spec c conn) as [Heq|Hne].
        + apply bool_decide_eq_true. apply Hstep. now left.
        + apply bool_decide_ext. rewrite Hstep. tauto.
      - destruct (Nat.eqb_spec c conn) as [Heq|Hne].
        + apply bool_decide_eq_false. rewrite Hstep. tauto.
        + apply bool_decide_ext. rewrite Hstep. tauto.
      - apply bool_decide_ext. exact Hstep. }
    rewrite Hb. destruct req; reflexivity.
Qed.

(** Registering twice is registering once; unregistering a connection that
    is no member changes nothing and logs nothing; registering a new
    connection and unregistering it gives the hub back. *)
Theorem Register_Unregister (range_keys : gmap Conn bool -> list Conn)
    (write : Conn -> option string) (h : ClientHub) (conn : Conn) :
  fst (Run range_keys write h [ReqRegister conn; ReqRegister conn])
  = fst (Run range_keys write h [ReqRegister conn]) /\
  (conn ∉ dom (clients h) ->
   Run_step range_keys write h (ReqUnregister conn) = (h, []) /\
   fst (Run range_keys write h [ReqRegister conn; ReqUnregister conn]) = h).
Proof.
  split.
  - cbn. now rewrite insert_insert_eq.
  - intros Hnew. apply not_elem_of_dom in Hnew. split.
    + cbn. now rewrite Hnew.
    + cbn. rewrite lookup_insert_eq. cbn.
      rewrite delete_insert_id by exact Hnew. now destruct h.
Qed.

Lemma Register_Unregister_witness :
  let h := {| clients := <[1%nat := true]> ∅ |} in
  fst (Run (fun m => elements (dom m)) (fun _ => None) h
         [ReqRegister 2%nat; ReqUnregister 2%nat]) = h.
Proof.
  intros h.
  refine (proj2 (proj2 (Register_Unregister (fun m => elements (dom m))
                          (fun _ => None) h 2%nat) _)).
  apply not_elem_of_dom. reflexivity.
Defined.

Lemma not_sender_filter_elements (m : gmap Conn bool) (sender : Conn)
    (order : list Conn) :
  order ≡ₚ elements (dom m) ->
  filter (fun c => c ≠ sender) order ≡ₚ elements (dom m ∖ {[sender]}).
Proof.
  intros Hperm. apply NoDup_Permutation.
  - apply NoDup_filter. rewrite Hperm. apply NoDup_elements.
  - apply NoDup_elements.
  - intros c. rewrite list_elem_of_filter, Hperm, !elem_of_elements,
      elem_of_difference, elem_of_singleton. tauto.
Qed.

Lemma broadcast_range_only_sender (order : list Conn)
    (msg : BroadcastMessage) (write : Conn -> option string) :
  Forall (fun c => c = Sender msg) order ->
  broadcast_range order msg write = [].
Proof.
  induction 1 as [|c order Hc _ IH]; [reflexivity|].
  cbn [broadcast_range]. subst c. now rewrite Nat.eqb_refl.
Qed.

(** A broadcast makes as many writes as the hub has members other than the
    sender: none in an empty hub or when the sender is alone. *)
Theorem broadcast_number_of_writes
    (range_keys : gmap Conn bool -> list Conn) (write : Conn -> option string)
    (h : ClientHub) (msg : BroadcastMessage) :
  range_keys (clients h) ≡ₚ elements (dom (clients h)) ->
  let evs := snd (Run_step range_keys write h (ReqBroadcast msg)) in
  length (attempted evs) = size (dom (clients h) ∖ {[Sender msg]}) /\
  (dom (clients h) ⊆ {[Sender msg]} -> evs = []).
Proof.
  intros Hperm evs. unfold evs. cbn [Run_step snd].
  pose proof (not_sender_filter_elements (clients h) (Sender msg) _ Hperm) as Hf.
  split.
  - rewrite attempted_broadcast_range, Hf. reflexivity.
  - intros Hsub.
    apply broadcast_range_only_sender.
    apply Forall_forall. intros c Hc. rewrite Hperm in Hc.
    apply elem_of_elements, Hsub, elem_of_singleton in Hc. exact Hc.
Qed.

Lemma broadcast_number_of_writes_witness :
  let h := {| clients := <[1%nat := true]> (<[2%nat := true]> (<[3%nat := true]> ∅)) |} in
  let msg := {| Payload := "hi"; Sender := 1%nat |} in
  length (attempted (snd (Run_step (fun m => elements (dom m)) (fun _ => None)
                            h (ReqBroadcast msg))))
  = size (dom (clients h) ∖ {[Sender msg]}).
Proof.
  intros h msg.
  refine (proj1 (broadcast_number_of_writes (fun m => elements (dom m))
                   (fun _ => None) h msg _)).
  reflexivity.
Defined.

(** Once a connection is unregistered, a broadcast no longer writes to it. *)
Theorem no_write_after_Unregister
    (range_keys : gmap Conn bool -> list Conn) (write : Conn -> option string)
    (h : ClientHub) (conn : Conn) (msg : BroadcastMessage) :
  (forall m, range_keys m ≡ₚ elements (dom m)) ->
  let h1 := fst (Run_step range_keys write h (ReqUnregister conn)) in
  conn ∉ attempted (snd (Run_step range_keys write h1 (ReqBroadcast msg))).
Proof.
  intros Hperm h1. cbn [Run_step snd].
  rewrite attempted_broadcast_range, list_elem_of_filter, Hperm, elem_of_elements.
  intros [_ Hin]. unfold h1 in Hin.
  apply Run_step_dom in Hin as [Hne _]. now apply Hne.
Qed.

Lemma no_write_after_Unregister_witness :
  let h := {| clients := <[1%nat := true]> (<[2%nat := true]> (<[3%nat := true]> ∅)) |} in
  let rk := fun m : gmap Conn bool => elements (dom m) in
  let h1 := fst (Run_step rk (fun _ => None) h (ReqUnregister 2%nat)) in
  2%nat ∉ attempted (snd (Run_step rk (fun _ => None) h1
                            (ReqBroadcast {| Payload := "hi"; Sender := 1%nat |}))).
Proof.
  intros h rk h1.
  apply (no_write_after_Unregister rk (fun _ => None) h 2%nat
           {| Payload := "hi"; Sender := 1%nat |}).
  intros m. reflexivity.
Defined.

(** ** The origin check and the handshake *)

Lemma lor_below_128 (x y : Z) :
  0 <= x -> 0 <= y -> (Z.lor x y < 128 <-> x < 128 /\ y < 128).
Proof.
  intros Hx Hy.
  destruct (Z.eq_dec x 0) as [->|Hx0]; [rewrite Z.lor_0_l; lia|].
  destruct (Z.eq_dec y 0) as [->|Hy0]; [rewrite Z.lor_0_r; lia|].
  assert (Hl : 0 < Z.lor x y).
  { pose proof (proj2 (Z.lor_nonneg x y) (conj Hx Hy)).
    assert (Z.lor x y <> 0) by (rewrite Z.lor_eq_0_iff; lia). lia. }
  change 128 with (2 ^ 7).
  rewrite !Z.log2_lt_pow2 by lia. rewrite Z.log2_lor by lia. lia.
Qed.

Lemma byte_val_inj (a b : ascii) : byte_val a = byte_val b -> a = b.
Proof.
  intros H. rewrite <- (byte_of_val a), <- (byte_of_val b). now rewrite H.
Qed.

Lemma byte_val_lower (a : ascii) :
  byte_val a < 128 ->
  byte_val (lower_byte a)
  = if (65 <=? byte_val a) && (byte_val a <=? 90)
    then byte_val a + 32 else byte_val a.
Proof.
  intros Ha. unfold lower_byte. pose proof (byte_val_range a).
  destruct ((65 <=? byte_val a) && (byte_val a <=? 90)); [|reflexivity].
  apply byte_val_of. lia.
Qed.

(** Two ASCII bytes pass the byte test of [EqualFold] exactly when they are
    the same letter up to case. *)
Lemma lower_byte_eqb (a b : ascii) :
  byte_val a < 128 -> byte_val b < 128 ->
  Ascii.eqb (lower_byte a) (lower_byte b)
  = if byte_val b =? byte_val a then true
    else
      let lo := if byte_val b <? byte_val a then byte_val b else byte_val a in
      let hi := if byte_val b <? byte_val a then byte_val a else byte_val b in
      (65 <=? lo) && (lo <=? 90) && (hi =? lo + 97 - 65).
Proof.
  intros Ha Hb.
  pose proof (byte_val_lower a Ha) as La. pose proof (byte_val_lower b Hb) as Lb.
  destruct (Ascii.eqb_spec (lower_byte a) (lower_byte b)) as [Heq|Hne].
  - apply (f_equal byte_val) in Heq. rewrite La, Lb in Heq. clear La Lb.
    revert Heq. cbv zeta.
    destruct (Z.eqb_spec (byte_val b) (byte_val a)); [reflexivity|].
    destruct (Z.ltb_spec (byte_val b) (byte_val a));
      repeat zcase; intros Heq; try reflexivity; lia.
  - assert (Hz : byte_val (lower_byte a) <> byte_val (lower_byte b))
      by (intros H; apply Hne, byte_val_inj, H).
    rewrite La, Lb in Hz. clear La Lb Hne.
    revert Hz. cbv zeta.
    destruct (Z.eqb_spec (byte_val b) (byte_val a)) as [He|He];
      [rewrite He; intros Hz; contradiction|].
    destruct (Z.ltb_spec (byte_val b) (byte_val a));
      repeat zcase; intros Hz; try reflexivity; lia.
Qed.

(** On ASCII strings [EqualFold] is equality up to the case of the ASCII
    letters, whatever it does beyond ASCII. *)
Lemma EqualFold_ascii (EqualFold_unicode : string -> string -> bool)
    (s t : string) :
  ascii_only s = true -> ascii_only t = true ->
  EqualFold EqualFold_unicode s t = String.eqb (ascii_lower s) (ascii_lower t).
Proof.
  revert t. induction s as [|a s IH]; intros [|b t] Hs Ht; try reflexivity.
  cbn [ascii_only] in Hs, Ht.
  apply andb_true_iff in Hs as [Ha Hs]. apply andb_true_iff in Ht as [Hb Ht].
  apply Z.ltb_lt in Ha, Hb.
  pose proof (byte_val_range a). pose proof (byte_val_range b).
  cbn [EqualFold ascii_lower String.eqb]. cbv zeta.
  destruct (Z.leb_spec 128 (Z.lor (byte_val a) (byte_val b))) as [Hhigh|_].
  { exfalso. pose proof (proj2 (lor_below_128 (byte_val a) (byte_val b)
                                  ltac:(lia) ltac:(lia)) (conj Ha Hb)). lia. }
  rewrite (lower_byte_eqb a b Ha Hb), (IH t Hs Ht). cbv zeta.
  destruct (byte_val b =? byte_val a); [reflexivity|].
  destruct (_ && _); reflexivity.
Qed.

(** An origin made of ASCII bytes is allowed exactly when it is
    [http://localhost:4000] up to the case of its letters; the empty origin
    is refused. This does not depend on the Unicode part of
    [strings.EqualFold]. *)
Theorem originAllowed_ascii (EqualFold_unicode : string -> string -> bool)
    (o : string) :
  ascii_only o = true ->
  (originAllowed EqualFold_unicode o = true
   <-> ascii_lower o = "http://localhost:4000"%string) /\
  originAllowed EqualFold_unicode EmptyString = false.
Proof.
  intros Ho. split; [|reflexivity].
  unfold originAllowed, allowedOrigins. cbn [existsb].
  rewrite orb_false_r,
    (EqualFold_ascii _ o "http://localhost:4000" Ho eq_refl).
  change (ascii_lower "http://localhost:4000") with "http://localhost:4000"%string.
  destruct (String.eqb_spec o EmptyString) as [->|Hne].
  - split; discriminate.
  - apply String.eqb_eq.
Qed.

Lemma originAllowed_ascii_witness :
  originAllowed (fun _ _ => false) "HTTP://LocalHost:4000" = true
  <-> ascii_lower "HTTP://LocalHost:4000" = "http://localhost:4000"%string.
Proof.
  exact (proj1 (originAllowed_ascii (fun _ _ => false) "HTTP://LocalHost:4000"
                  eq_refl)).
Defined.

(** The handshake. A method other than [GET] is answered 405 before
    anything else; every failure the upgrader reports, whatever its status,
    is answered 403 [origin not allowed]; and the connection is upgraded
    only for a [GET] whose origin is allowed, hence not empty and, when it
    is ASCII, [http://localhost:4000] up to case. *)
Theorem handshake_outcome (EqualFold_unicode : string -> string -> bool)
    (checks_before : Request -> option Z)
    (steps_after : Request -> UpgradeResult) (r : Request) :
  let result :=
    HandleWebSocket_handshake EqualFold_unicode checks_before steps_after r in
  (Method r <> "GET"%string -> result = HTTPError "method not allowed" 405) /\
  (Method r = "GET"%string ->
   result = Upgraded \/ result = ConnectionLost \/
   result = HTTPError "origin not allowed" 403) /\
  (Method r = "GET"%string ->
   originAllowed EqualFold_unicode (Origin r) = false ->
   checks_before r = None ->
   result = HTTPError "origin not allowed" 403) /\
  (result = Upgraded ->
   Method r = "GET"%string /\
   checks_before r = None /\ steps_after r = UpgradeOk /\
   originAllowed EqualFold_unicode (Origin r) = true /\
   Origin r <> EmptyString /\
   (ascii_only (Origin r) = true ->
    ascii_lower (Origin r) = "http://localhost:4000"%string)).
Proof.
  intros result. unfold result, HandleWebSocket_handshake, Upgrade, upgrader_Error.
  destruct (String.eqb_spec (Method r) "GET") as [HG|HG]; cbn [negb].
  - split; [contradiction|]. split; [|split].
    + intros _. destruct (checks_before r); [now right; right|].
      destruct (originAllowed _ _); [|now right; right].
      destruct (steps_after r); auto.
    + intros _ Ho Hb. now rewrite Hb, Ho.
    + destruct (checks_before r); [discriminate|].
      destruct (originAllowed EqualFold_unicode (Origin r)) eqn:Ho; [|discriminate].
      destruct (steps_after r); try discriminate. intros _.
      repeat split; try assumption.
      * intros He. rewrite He in Ho. discriminate.
      * intros Ha. unfold originAllowed, allowedOrigins in Ho. cbn [existsb] in Ho.
        destruct (String.eqb (Origin r) EmptyString); [discriminate|].
        rewrite orb_false_r,
          (EqualFold_ascii _ _ "http://localhost:4000" Ha eq_refl) in Ho.
        now apply String.eqb_eq in Ho.
  - split; [reflexivity|]. split; [contradiction|].
    split; [contradiction | discriminate].
Qed.

Lemma handshake_outcome_witness :
  HandleWebSocket_handshake (fun _ _ => false) (fun _ => None)
    (fun _ => UpgradeOk)
    {| Method := "GET"; Origin := "http://evil.example" |}
  = HTTPError "origin not allowed" 403.
Proof.
  refine (proj1 (proj2 (proj2
    (handshake_outcome (fun _ _ => false) (fun _ => None) (fun _ => UpgradeOk)
       {| Method := "GET"; Origin := "http://evil.example" |}))) _ _ _);
    reflexivity.
Defined.

(** ** The command processor *)

(** A command other than the four operations is answered by the error
    [unknown command: <name>], the name being echoed, without a result. *)
Theorem unknown_command_response (req : CommandRequest) :
  Command req <> "add"%string ->
  Command req <> "subtract"%string ->
  Command req <> "multiply"%string ->
  Command req <> "divide"%string ->
  evaluate req
  = {| Result := f64_zero; RCommand := Command req;
       Error := ("unknown command: " ++ Command req)%string |} /\
  Marshal (evaluate req)
  = inl [("command"%string, JString (Command req));
         ("error"%string, JString ("unknown command: " ++ Command req)%string)].
Proof.
  intros Ha Hs Hm Hd.
  assert (Hev : evaluate req
                = {| Result := f64_zero; RCommand := Command req;
                     Error := ("unknown command: " ++ Command req)%string |}).
  { unfold evaluate.
    rewrite (proj2 (String.eqb_neq _ _) Ha), (proj2 (String.eqb_neq _ _) Hs),
      (proj2 (String.eqb_neq _ _) Hm), (proj2 (String.eqb_neq _ _) Hd).
    reflexivity. }
  split; [exact Hev|]. rewrite Hev. reflexivity.
Qed.

Lemma unknown_command_response_witness :
  Marshal (evaluate {| Command := "modulo"; A := f64_of_Z 7; B := f64_of_Z 2 |})
  = inl [("command"%string, JString "modulo");
         ("error"%string, JString "unknown command: modulo")].
Proof.
  refine (proj2 (unknown_command_response
                   {| Command := "modulo"; A := f64_of_Z 7; B := f64_of_Z 2 |}
                   _ _ _ _)); discriminate.
Defined.

Lemma Marshal_finite (s : bool) (m : positive) (e : Z) (command : string) :
  Marshal {| Result := S754_finite s m e; RCommand := command;
             Error := EmptyString |}
  = inl [("result"%string, JNumber (S754_finite s m e));
         ("command"%string, JString command)].
Proof. destruct s; reflexivity. Qed.

(** An operation whose IEEE result is finite and not zero is answered by
    this result and the command, without an error; for [divide] this holds
    when the divisor is not zero. *)
Theorem arithmetic_response (a b : float64) (s : bool) (m : positive) (e : Z) :
  let response := fun command r =>
    inl [("result"%string, JNumber r); ("command"%string, JString command)]
    : JObject + string in
  (f64_add a b = S754_finite s m e ->
   Marshal (evaluate {| Command := "add"; A := a; B := b |})
   = response "add"%string (f64_add a b)) /\
  (f64_sub a b = S754_finite s m e ->
   Marshal (evaluate {| Command := "subtract"; A := a; B := b |})
   = response "subtract"%string (f64_sub a b)) /\
  (f64_mul a b = S754_finite s m e ->
   Marshal (evaluate {| Command := "multiply"; A := a; B := b |})
   = response "multiply"%string (f64_mul a b)) /\
  (f64_eqb b f64_zero = false ->
   f64_div a b = S754_finite s m e ->
   Marshal (evaluate {| Command := "divide"; A := a; B := b |})
   = response "divide"%string (f64_div a b)).
Proof.
  intros response. unfold response, evaluate. cbn [Command A B String.eqb Ascii.eqb Bool.eqb andb].
  repeat split.
  - intros ->. cbn. apply Marshal_finite.
  - intros ->. cbn. apply Marshal_finite.
  - intros ->. cbn. apply Marshal_finite.
  - intros -> ->. cbn. apply Marshal_finite.
Qed.

Lemma arithmetic_response_witness :
  Marshal (evaluate {| Command := "divide"; A := f64_of_Z 1; B := f64_of_Z 4 |})
  = inl [("result"%string, JNumber (f64_div (f64_of_Z 1) (f64_of_Z 4)));
         ("command"%string, JString "divide")].
Proof.
  refine (proj2 (proj2 (proj2
    (arithmetic_response (f64_of_Z 1) (f64_of_Z 4) false 4503599627370496 (-54))))
    _ _); reflexivity.
Defined.

Section ReplyProperties.

Variable strings_ToUpper : string -> string.
Variable json_Unmarshal : string -> CommandRequest + string.
Variable encode_float : float64 -> string.
Variable encode_string : string -> string.

Local Abbreviation body :=
  (responseBody strings_ToUpper json_Unmarshal encode_float encode_string).
Local Abbreviation step :=
  (read_loop_body strings_ToUpper json_Unmarshal encode_float encode_string).
Local Abbreviation loop :=
  (read_loop strings_ToUpper json_Unmarshal encode_float encode_string).
Local Abbreviation object := (encode_object encode_float encode_string).

(** A message that opens with a brace goes to [processCommand]. *)
Lemma responseBody_brace (rest : string) :
  body ("{" ++ rest)%string
  = Some match processCommand json_Unmarshal encode_float encode_string
                 ("{" ++ rest)%string with
         | inl resp => resp
         | inr err => ("{" ++ dquote ++ "error" ++ dquote ++ ":"
                           ++ dquote ++ err ++ dquote ++ "}")%string
         end.
Proof.
  unfold responseBody.
  change (HasPrefix ("{" ++ rest)%string "UPPER:") with false.
  change (HasPrefix ("{" ++ rest)%string "REVERSE:") with false.
  change (HasPrefix ("{" ++ rest)%string "{") with true.
  change (String.length ("{" ++ rest)%string) with (S (String.length rest)).
  cbv iota. rewrite andb_true_r.
  destruct (Z.ltb_spec 0 (Z.of_nat (S (String.length rest)))); [|lia].
  now destruct (processCommand _ _ _ _).
Qed.

(** A message that opens with a brace and is no JSON of a request is
    answered, with the next message id, by the object of command [unknown]
    and error [invalid JSON: <parse error>]; the loop goes on as long as the
    write succeeds. *)
Theorem invalid_JSON_reply (messageCounter : Z) (rest err : string)
    (write_ok : bool) :
  json_Unmarshal ("{" ++ rest)%string = inr err ->
  step messageCounter (ReadMessage TextMessage ("{" ++ rest)%string) write_ok
  = Some ((messageCounter + 1) mod 2 ^ 64,
          [WriteMessage TextMessage
             ("#" ++ FormatUint ((messageCounter + 1) mod 2 ^ 64) ++ " "
                  ++ object [("command"%string, JString "unknown");
                             ("error"%string,
                              JString ("invalid JSON: " ++ err)%string)])%string],
          write_ok).
Proof.
  intros Herr. unfold read_loop_body. cbn [Z.eqb TextMessage Pos.eqb].
  rewrite responseBody_brace. unfold processCommand. rewrite Herr. reflexivity.
Qed.

(** A request whose result is infinite is not answered by a response
    object: [json.Marshal] fails and the reply is the object with the one
    member [error] holding [json: unsupported value: +Inf] (or [-Inf]). *)
Theorem infinite_result_reply (rest : string) (req : CommandRequest)
    (negative : bool) :
  json_Unmarshal ("{" ++ rest)%string = inl req ->
  Error (evaluate req) = EmptyString ->
  Result (evaluate req) = S754_infinity negative ->
  body ("{" ++ rest)%string
  = Some ("{" ++ dquote ++ "error" ++ dquote ++ ":" ++ dquote
              ++ "json: unsupported value: "
              ++ (if negative then "-Inf" else "+Inf")
              ++ dquote ++ "}")%string.
Proof.
  intros Hreq Herr Hres. rewrite responseBody_brace.
  unfold processCommand. rewrite Hreq. unfold Marshal. rewrite Herr, Hres.
  destruct negative; reflexivity.
Qed.

End ReplyProperties.

Lemma invalid_JSON_reply_witness :
  read_loop_body (fun s => s) (fun _ => inr "unexpected end of JSON input"%string)
    (fun _ => EmptyString) (fun s => s) 0
    (ReadMessage TextMessage ("{" ++ "oops")%string) true
  = Some ((0 + 1) mod 2 ^ 64,
          [WriteMessage TextMessage
             ("#" ++ FormatUint ((0 + 1) mod 2 ^ 64) ++ " "
                  ++ encode_object (fun _ => EmptyString) (fun s => s)
                       [("command"%string, JString "unknown");
                        ("error"%string,
                         JString ("invalid JSON: "
                                    ++ "unexpected end of JSON input")%string)])%string],
          true).
Proof.
  apply (invalid_JSON_reply (fun s => s)
           (fun _ => inr "unexpected end of JSON input"%string)
           (fun _ => EmptyString) (fun s => s) 0 "oops"
           "unexpected end of JSON input" true).
  reflexivity.
Defined.

Lemma infinite_result_reply_witness :
  let big := S754_finite false (2 ^ 53 - 1)%positive 971 in
  let req := {| Command := "multiply"; A := big; B := big |} in
  responseBody (fun s => s) (fun _ => inl req) (fun _ => EmptyString)
    (fun s => s) ("{" ++ "big")%string
  = Some ("{" ++ dquote ++ "error" ++ dquote ++ ":" ++ dquote
              ++ "json: unsupported value: " ++ "+Inf" ++ dquote ++ "}")%string.
Proof.
  intros big req.
  apply (infinite_result_reply (fun s => s) (fun _ => inl req)
           (fun _ => EmptyString) (fun s => s) "big" req false);
    reflexivity.
Defined.

(** ** Runes and the REVERSE reply *)

Lemma encode_rune_sanitize (r : Z) : encode_rune (sanitize r) = encode_rune r.
Proof.
  unfold sanitize. destruct (is_scalar r) eqn:Hs; [reflexivity|].
  assert (Hn : ~ (0 <= r <= 0x10FFFF /\ (r < 0xD800 \/ 0xDFFF < r))).
  { intros H. apply is_scalar_spec in H. congruence. }
  change (encode_rune RuneError) with [0xEF; 0xBF; 0xBD].
  unfold encode_rune, MaxRune. repeat zcase; try reflexivity; lia.
Qed.

Lemma is_scalar_sanitize (r : Z) : is_scalar (sanitize r) = true.
Proof. unfold sanitize. destruct (is_scalar r) eqn:Hs; [exact Hs | reflexivity]. Qed.

(** The round trip [[]rune(string(runes))] gives every scalar value back
    and [RuneError] in the place of every other rune. *)
Theorem runes_of_string_of_runes_sanitize (runes : list Z) :
  runes_of_string (string_of_runes runes) = map sanitize runes.
Proof.
  assert (Heq : string_of_runes runes = string_of_runes (map sanitize runes)).
  { induction runes as [|r runes IH]; [reflexivity|].
    cbn [string_of_runes map]. now rewrite encode_rune_sanitize, IH. }
  rewrite Heq. clear Heq. apply runes_of_string_of_runes.
  induction runes as [|r runes IH]; [reflexivity|].
  cbn [map forallb]. now rewrite is_scalar_sanitize, IH.
Qed.

Lemma forallb_rev {X} (p : X -> bool) (l : list X) :
  forallb p l = true -> forallb p (rev l) = true.
Proof.
  intros H. apply forallb_forall. intros x Hx. apply in_rev in Hx.
  revert x Hx. now apply forallb_forall.
Qed.

(** Whatever the bytes of the text, malformed or not, the reply to
    [REVERSE:] is well-formed UTF-8, and its code points are those read off
    the text (an invalid byte reading as [RuneError]) in reverse order. *)
Theorem REVERSE_reply_well_formed
    (strings_ToUpper : string -> string)
    (json_Unmarshal : string -> CommandRequest + string)
    (encode_float : float64 -> string) (encode_string : string -> string)
    (text : string) :
  exists reply,
    responseBody strings_ToUpper json_Unmarshal encode_float encode_string
      ("REVERSE:" ++ text)%string = Some reply /\
    well_formed reply /\
    runes_of_string reply = rev (runes_of_string text) /\
    length (runes_of_string reply) = length (runes_of_string text).
Proof.
  eexists. split; [apply responseBody_REVERSE|].
  pose proof (forallb_rev _ _ (runes_of_string_scalar text)) as Hs.
  split; [|split].
  - exists (rev (runes_of_string text)). split; [exact Hs | reflexivity].
  - now apply runes_of_string_of_runes.
  - rewrite runes_of_string_of_runes by exact Hs. apply length_rev.
Qed.

Lemma runes_of_string_ascii (s : string) :
  ascii_only s = true ->
  runes_of_string s = map byte_val (list_ascii_of_string s).
Proof.
  induction s as [|a s IH]; [reflexivity|]. cbn [ascii_only]. intros H.
  apply andb_true_iff in H as [Ha Hs]. apply Z.ltb_lt in Ha.
  rewrite runes_1 by exact Ha. cbn [list_ascii_of_string map]. now rewrite IH.
Qed.

Lemma string_of_runes_ascii (l : list ascii) :
  Forall (fun a => byte_val a < 0x80) l ->
  string_of_runes (map byte_val l) = string_of_list_ascii l.
Proof.
  induction 1 as [|a l Ha _ IH]; [reflexivity|].
  cbn [map string_of_runes string_of_list_ascii]. rewrite IH.
  pose proof (byte_val_range a). unfold encode_rune.
  repeat zcase. cbn [string_of_bytes]. now rewrite byte_of_val.
Qed.

Lemma ascii_only_Forall (s : string) :
  ascii_only s = true ->
  Forall (fun a => byte_val a < 0x80) (list_ascii_of_string s).
Proof.
  induction s as [|a s IH]; [constructor|]. cbn [ascii_only]. intros H.
  apply andb_true_iff in H as [Ha Hs]. apply Z.ltb_lt in Ha.
  constructor; auto.
Qed.

(** For an ASCII text the reply to [REVERSE:] is the text with its bytes in
    reverse order. *)
Theorem REVERSE_ascii
    (strings_ToUpper : string -> string)
    (json_Unmarshal : string -> CommandRequest + string)
    (encode_float : float64 -> string) (encode_string : string -> string)
    (text : string) :
  ascii_only text = true ->
  responseBody strings_ToUpper json_Unmarshal encode_float encode_string
    ("REVERSE:" ++ text)%string
  = Some (string_rev text).
Proof.
  intros Ha. rewrite responseBody_REVERSE. f_equal.
  rewrite (runes_of_string_ascii text Ha), <- map_rev.
  apply string_of_runes_ascii. apply Forall_rev. now apply ascii_only_Forall.
Qed.

Lemma REVERSE_ascii_witness :
  responseBody (fun s => s) (fun _ => inr EmptyString) (fun _ => EmptyString)
    (fun s => s) ("REVERSE:" ++ "hello world")%string
  = Some (string_rev "hello world").
Proof.
  apply (REVERSE_ascii (fun s => s) (fun _ => inr EmptyString)
           (fun _ => EmptyString) (fun s => s) "hello world").
  reflexivity.
Defined.

(** ** The dispatch and the read loop *)

Lemma HasPrefix_split (s prefix : string) :
  HasPrefix s prefix = true -> s = (prefix ++ TrimPrefix s prefix)%string.
Proof.
  intros H. unfold TrimPrefix. rewrite H. revert s H.
  induction prefix as [|p prefix IH]; intros s H; [reflexivity|].
  destruct s as [|c s]; [discriminate|]. cbn [HasPrefix] in H.
  apply andb_true_iff in H as [Hc Hs]. apply Ascii.eqb_eq in Hc. subst c.
  cbn [String.length drop_bytes].
  change (String p prefix ++ drop_bytes (String.length prefix) s)%string
    with (String p (prefix ++ drop_bytes (String.length prefix) s)%string).
  f_equal. now apply IH.
Qed.

Section LoopProperties.

Variable strings_ToUpper : string -> string.
Variable json_Unmarshal : string -> CommandRequest + string.
Variable encode_float : float64 -> string.
Variable encode_string : string -> string.

Local Abbreviation body :=
  (responseBody strings_ToUpper json_Unmarshal encode_float encode_string).
Local Abbreviation loop :=
  (read_loop strings_ToUpper json_Unmarshal encode_float encode_string).

(** The dispatch by the shape of the message, in this order of precedence:
    [UPPER:<text>] is answered by the upper-cased text, [REVERSE:<text>] by
    the text with its code points reversed, a message that opens with a
    brace by the command processor, and any other message, the empty one
    included, by itself. *)
Theorem responseBody_dispatch (message : string) :
  (exists text, message = ("UPPER:" ++ text)%string /\
                body message = Some (strings_ToUpper text)) \/
  (exists text, message = ("REVERSE:" ++ text)%string /\
                body message
                = Some (string_of_runes (rev (runes_of_string text)))) \/
  (exists rest, message = ("{" ++ rest)%string /\
                body message
                = Some match processCommand json_Unmarshal encode_float
                               encode_string message with
                       | inl resp => resp
                       | inr err => ("{" ++ dquote ++ "error" ++ dquote ++ ":"
                                         ++ dquote ++ err ++ dquote ++ "}")%string
                       end) \/
  (HasPrefix message "UPPER:" = false /\
   HasPrefix message "REVERSE:" = false /\
   HasPrefix message "{" = false /\
   body message = Some message).
Proof.
  destruct (HasPrefix message "UPPER:") eqn:HU.
  { left. exists (TrimPrefix message "UPPER:").
    split; [now apply HasPrefix_split|].
    unfold responseBody. now rewrite HU. }
  destruct (HasPrefix message "REVERSE:") eqn:HR.
  { right. left. exists (TrimPrefix message "REVERSE:").
    pose proof (HasPrefix_split _ _ HR) as Hm.
    split; [exact Hm|]. rewrite Hm at 1. apply responseBody_REVERSE. }
  destruct (HasPrefix message "{") eqn:HB.
  { right. right. left. exists (TrimPrefix message "{").
    pose proof (HasPrefix_split _ _ HB) as Hm.
    split; [exact Hm|]. rewrite Hm. apply responseBody_brace. }
  right. right. right. repeat split. now apply responseBody_echo.
Qed.

(** A run of frames that are all read and all answered without error, then
    whatever follows. *)
Lemma read_loop_good_prefix (pre : list (ReadResult * bool)) :
  forall messageCounter,
    0 <= messageCounter < 2 ^ 64 ->
    (forall r ok, In (r, ok) pre -> r <> ReadError /\ ok = true) ->
    exists sent,
      length sent = text_frames pre /\
      forall post,
        loop messageCounter (pre ++ post)
        = match loop ((messageCounter + Z.of_nat (text_frames pre)) mod 2 ^ 64)
                  post with
          | Some (counter, sent') => Some (counter, sent ++ sent')
          | None => None
          end.
Proof.
  induction pre as [|[r ok] pre IH]; intros counter Hrange Hall.
  - exists []. split; [reflexivity|]. intros post.
    unfold text_frames. cbn [List.filter length app].
    rewrite Z.add_0_r, Z.mod_small by exact Hrange.
    now destruct (loop counter post) as [[c s]|].
  - destruct (Hall r ok (or_introl eq_refl)) as [Hr ->].
    assert (Hall' : forall r' ok', In (r', ok') pre -> r' <> ReadError /\ ok' = true)
      by (intros r' ok' Hin; apply Hall; now right).
    destruct r as [|msgType payload]; [contradiction|].
    unfold text_frames. cbn [List.filter fst is_text].
    destruct (Z.eqb_spec msgType TextMessage) as [->|Hne].
    + destruct (read_loop_body_text strings_ToUpper json_Unmarshal
                  encode_float encode_string counter payload true) as [b Hb].
      destruct (IH ((counter + 1) mod 2 ^ 64)) as (sent & Hlen & Hpost);
        [apply Z.mod_pos_bound; reflexivity | exact Hall' |].
      eexists (_ :: sent). split; [cbn [length]; now rewrite Hlen|].
      intros post. cbn [app read_loop]. rewrite Hb, Hpost.
      fold (text_frames pre). cbn [length].
      assert (Hk : ((counter + 1) mod 2 ^ 64 + Z.of_nat (text_frames pre))
                     mod 2 ^ 64
                   = (counter + Z.of_nat (S (text_frames pre))) mod 2 ^ 64)
        by (rewrite Zplus_mod_idemp_l; f_equal; lia).
      rewrite Hk. now destruct (loop _ post) as [[c s]|].
    + destruct (IH counter Hrange Hall') as (sent & Hlen & Hpost).
      exists sent. split; [exact Hlen|]. intros post.
      cbn [app read_loop]. rewrite read_loop_body_other by exact Hne.
      rewrite Hpost. fold (text_frames pre).
      now destruct (loop _ post) as [[c s]|].
Qed.

(** How the loop ends. After frames that were all read and answered, a
    read error makes the handler attempt one more write and no other: the
    close frame of code 1000 and reason [idle timeout], whose outcome it
    discards, so that the loop ends in the same way whether this write
    succeeds or fails, the counter being left alone. A text frame whose
    write fails ends the loop without any close frame, its message id being
    consumed. In both cases nothing that follows is read. *)
Theorem read_loop_ends (pre : list (ReadResult * bool)) (messageCounter : Z) :
  0 <= messageCounter < 2 ^ 64 ->
  (forall r ok, In (r, ok) pre -> r <> ReadError /\ ok = true) ->
  let counter := (messageCounter + Z.of_nat (text_frames pre)) mod 2 ^ 64 in
  exists sent,
    length sent = text_frames pre /\
    (forall ok rest,
        loop messageCounter (pre ++ (ReadError, ok) :: rest)
        = Some (counter, sent ++ [WriteClose 1000 "idle timeout" ok])) /\
    (forall payload rest,
        exists reply,
          loop messageCounter
            (pre ++ (ReadMessage TextMessage payload, false) :: rest)
          = Some ((counter + 1) mod 2 ^ 64,
                  sent ++ [WriteMessage TextMessage reply])).
Proof.
  intros Hrange Hall counter.
  destruct (read_loop_good_prefix pre messageCounter Hrange Hall)
    as (sent & Hlen & Hpost).
  exists sent. split; [exact Hlen|]. split.
  - intros ok rest. rewrite Hpost. reflexivity.
  - intros payload rest.
    destruct (read_loop_body_text strings_ToUpper json_Unmarshal
                encode_float encode_string counter payload false) as [b Hb].
    eexists. rewrite Hpost. fold counter. cbn [read_loop]. rewrite Hb.
    reflexivity.
Qed.

End LoopProperties.

Lemma read_loop_ends_witness :
  exists sent,
    read_loop (fun s => s) (fun _ => inr EmptyString) (fun _ => EmptyString)
      (fun s => s) 5
      ([(ReadMessage TextMessage "a", true); (ReadMessage BinaryMessage "b", true)]
         ++ (ReadError, false) :: [(ReadMessage TextMessage "late", true)])
    = Some ((5 + Z.of_nat 1) mod 2 ^ 64,
            sent ++ [WriteClose 1000 "idle timeout" false]).
Proof.
  destruct (read_loop_ends (fun s => s) (fun _ => inr EmptyString)
              (fun _ => EmptyString) (fun s => s)
              [(ReadMessage TextMessage "a", true);
               (ReadMessage BinaryMessage "b", true)] 5)
    as (sent & _ & Herr & _).
  - lia.
  - intros r ok [H|[H|[]]]; injection H as <- <-; split;
      solve [discriminate | reflexivity].
  - exists sent. apply Herr.
Defined.

Lemma read_loop_counts_text_frames_witness :
  exists sent,
    read_loop (fun s => s) (fun _ => inr EmptyString) (fun _ => EmptyString)
      (fun s => s) 5
      [(ReadMessage TextMessage "a", true); (ReadMessage BinaryMessage "b", true);
       (ReadMessage TextMessage "c", true)]
    = Some ((5 + Z.of_nat 2) mod 2 ^ 64, sent)
    /\ length (replies sent) = 2%nat.
Proof.
  destruct (read_loop_counts_text_frames (fun s => s) (fun _ => inr EmptyString)
              (fun _ => EmptyString) (fun s => s)
              [(ReadMessage TextMessage "a", true);
               (ReadMessage BinaryMessage "b", true);
               (ReadMessage TextMessage "c", true)] 5)
    as (sent & Hloop & Hreplies & _).
  - lia.
  - intros r ok [H|[H|[H|[]]]]; injection H as <- <-; split;
      solve [discriminate | reflexivity].
  - exists sent. split; [exact Hloop | exact Hreplies].
Defined.
